(** * kinescope-dl: the adaptive-retrieval engine of [VideoDownloader]

    A shallow embedding of [src/kinescope/downloader.py].  Pure helpers of
    the class become functions; methods that talk to the network, spawn
    subprocesses or touch files become computations in a small
    state-and-exception monad over an explicit world (file map, event
    trace, the mutable fields of [self]).  Library calls whose code is not
    part of the repository (urljoin, the m3u8 and MPD parsers, base64, the
    HTTP session, the operating system) are fields of an environment
    record. *)

From stdpp Require Import gmap strings list fin_maps pretty.
From Stdlib Require Import ZArith QArith Ascii Sorting.Sorted Permutation.

Open Scope Z_scope.

(** ** Exceptions

    The subclasses of [Exception] the engine raises itself or inspects,
    and [OtherException] for whatever else a library call raises
    (HTTP and connection errors, JSON and base64 errors, [OSError], ...). *)
Inductive exn :=
| FFmpegNotFoundError (msg : string)
| Mp4DecryptNotFoundError (msg : string)
| SegmentDownloadError (msg : string)
| InvalidResolution (msg : string)
| VideoNotFound (msg : string)
| RuntimeError (msg : string)
| ChunkedEncodingError (msg : string)
| FileNotFoundError (msg : string)
| ValueError (msg : string)
| IndexError (msg : string)
| TypeError (msg : string)
| AttributeError (msg : string)
| OtherException (cls msg : string).

(** [str(e)], as the f-strings of [download] print it. *)
Definition exn_str (e : exn) : string :=
  match e with
  | FFmpegNotFoundError m | Mp4DecryptNotFoundError m | SegmentDownloadError m
  | InvalidResolution m | VideoNotFound m | RuntimeError m
  | ChunkedEncodingError m | FileNotFoundError m | ValueError m
  | IndexError m | TypeError m | AttributeError m | OtherException _ m => m
  end.

(** A pure result: [inl e] is a raised exception. *)
Abbreviation res A := (exn + A)%type.

(** ** Python values *)

(** Truthiness of an [Optional[str]]: [None] and the empty string are falsy. *)
Definition truthy_str (o : option string) : bool :=
  match o with
  | Some s => negb (String.eqb s "")
  | None => false
  end.

(** Truthiness of an [Optional[int]]: [None] and [0] are falsy. *)
Definition truthy_int (o : option Z) : bool :=
  match o with
  | Some z => negb (z =? 0)
  | None => false
  end.

(** [l[-1]] on a non-empty list. *)
Definition py_last {A} (l : list A) : option A := last l.

(** [l[-n:]]: the last [n] elements. *)
Definition py_lastn {A} (n : nat) (l : list A) : list A :=
  drop (length l - n)%nat l.

(** ** Sorting as [list.sort] / [sorted] do it

    Python's sort is stable, and the stable sorted permutation of a list
    is unique, so any stable sort computes the same list.  [py_insert]
    puts an element in front of the first element whose key is not
    smaller, which keeps equal keys in their original order when the list
    is built from the right. *)
Section PySort.
Context {A K : Type}.
Variable leb : K -> K -> bool.
Variable key : A -> K.

Fixpoint py_insert (x : A) (l : list A) : list A :=
  match l with
  | [] => [x]
  | y :: l' => if leb (key x) (key y) then x :: y :: l' else y :: py_insert x l'
  end.

Fixpoint py_sorted (l : list A) : list A :=
  match l with
  | [] => []
  | x :: l' => py_insert x (py_sorted l')
  end.
End PySort.

(** Tuple comparison on [(int, int)] keys. *)
Definition key2_leb (a b : Z * Z) : bool :=
  (a.1 <? b.1) || ((a.1 =? b.1) && (a.2 <=? b.2)).

(** Tuple comparison on [(int, int, int)] keys. *)
Definition key3_leb (a b : Z * Z * Z) : bool :=
  (a.1.1 <? b.1.1)
  || ((a.1.1 =? b.1.1) && key2_leb (a.1.2, a.2) (b.1.2, b.2)).

(** ** The parsed HLS master playlist (the [m3u8] objects the code reads) *)

Record StreamInfo := {
  si_resolution : option (Z * Z);
  si_bandwidth : option Z;
  si_audio : option string
}.

Record Playlist := {
  p_stream_info : StreamInfo;
  p_uri : string
}.

(** [default] and [autoselect] are kept as the attribute text the parser
    stores; the code only tests their truthiness. *)
Record Media := {
  m_type : option string;
  m_group_id : option string;
  m_language : option string;
  m_default : option string;
  m_autoselect : option string;
  m_uri : option string
}.

Record M3U8 := {
  pl_media : list Media;
  pl_playlists : list Playlist
}.

(** A variant is the tuple [(res, bw, video_uri, audio_uri)] of the
    source; the fields are its components 0 to 3. *)
Record Variant := {
  v_res : option (Z * Z);
  v_bw : Z;
  v_video_uri : string;
  v_audio_uri : option string
}.

(** The sort key of [get_hls_variants]:
    [(x[0][1] if x[0] else 0, x[1])]. *)
Definition variant_key (v : Variant) : Z * Z :=
  (match v_res v with Some (_, h) => h | None => 0 end, v_bw v).

(** ** Variant Resolver, HLS side *)
Section HlsVariants.
(** [urllib.parse.urljoin] and [str.lower]. *)
Variable urljoin : string -> string -> string.
Variable str_lower : string -> string.

Variable playlist_url : string.
Variable preferred_audio_lang : option string.

(** [audio_by_group.setdefault(m.group_id, []).append(m)] on an
    insertion-ordered dict. *)
Fixpoint setdefault_append (g : string) (m : Media)
    (d : list (string * list Media)) : list (string * list Media) :=
  match d with
  | [] => [(g, [m])]
  | (g', ms) :: d' =>
      if String.eqb g' g then (g', ms ++ [m]) :: d'
      else (g', ms) :: setdefault_append g m d'
  end.

Fixpoint dict_get (g : string) (d : list (string * list Media))
    : option (list Media) :=
  match d with
  | [] => None
  | (g', ms) :: d' => if String.eqb g' g then Some ms else dict_get g d'
  end.

Definition audio_by_group (pl : M3U8) : list (string * list Media) :=
  fold_left
    (fun d m =>
       if bool_decide (m_type m = Some "AUDIO") && truthy_str (m_group_id m)
       then setdefault_append (default "" (m_group_id m)) m d
       else d)
    (pl_media pl) [].

Definition _lang_rank (x : Media) : Z * Z * Z :=
  let lang := m_language x in
  let both := truthy_str preferred_audio_lang && truthy_str lang in
  let l := str_lower (default "" lang) in
  let p := str_lower (default "" preferred_audio_lang) in
  let exact := both && String.eqb l p in
  let prefix := both && String.prefix p l in
  (if exact then 0 else if prefix then 1 else 2,
   if truthy_str (m_default x) then 0 else 1,
   if truthy_str (m_autoselect x) then 0 else 1).

(** [sorted(medias, key=_lang_rank)[0]] joined to the playlist URL. *)
Definition best_audio_uri (medias : list Media) : option string :=
  match py_sorted key3_leb _lang_rank medias with
  | cand :: _ => Some (urljoin playlist_url (default "" (m_uri cand)))
  | [] => None
  end.

Definition with_uri (ms : list Media) : list Media :=
  filter (fun m => truthy_str (m_uri m) = true) ms.

Definition pick_audio_uri_for_group (groups : list (string * list Media))
    (group_id : option string) : option string :=
  match (if truthy_str group_id then dict_get (default "" group_id) groups
         else None) with
  | Some ms => best_audio_uri (with_uri ms)
  | None =>
      match groups with
      | [(_, only_group)] => best_audio_uri (with_uri only_group)
      | _ => None
      end
  end.

Definition variant_of (groups : list (string * list Media)) (v : Playlist)
    : Variant :=
  let si := p_stream_info v in
  {| v_res := si_resolution si;
     v_bw := default 0 (si_bandwidth si);
     v_video_uri := urljoin playlist_url (p_uri v);
     v_audio_uri := pick_audio_uri_for_group groups (si_audio si) |}.

(** [get_hls_variants] once the master playlist is loaded: the loop over
    [pl.playlists] followed by [variants.sort(key=...)]. *)
Definition hls_variants_of (pl : M3U8) : list Variant :=
  py_sorted key2_leb variant_key
    (map (variant_of (audio_by_group pl)) (pl_playlists pl)).

(** [v[0] and v[0][1] <= target_h]. *)
Definition res_leq (target_h : Z) (v : Variant) : bool :=
  match v_res v with
  | Some (_, h) => h <=? target_h
  | None => false
  end.

Definition leq_variants (target_h : Z) (variants : list Variant) : list Variant :=
  filter (fun v => res_leq target_h v = true) variants.

(** [chosen = leq[-1] if leq else variants[-1]] for an integer target
    height, [variants[-1]] without a desired resolution.  The list is
    not empty where the source evaluates this. *)
Definition chosen_variant (variants : list Variant) (target_h : option Z)
    : option Variant :=
  match target_h with
  | Some h =>
      match leq_variants h variants with
      | [] => py_last variants
      | leq => py_last leq
      end
  | None => py_last variants
  end.

(** The body of [_select_hls_variant_urls] once [get_hls_variants]
    returned [variants].  A desired resolution is a pair whose
    components may be [None] (it can come from an MPD representation
    without a width).  With a [None] target height the comparison
    [v[0][1] <= target_h] raises [TypeError] at the first variant that
    has a resolution. *)
Definition select_from (variants : list Variant)
    (desired_resolution : option (option Z * option Z))
    : res (string * option string) :=
  match variants with
  | [] => inr (playlist_url, None)
  | _ =>
      let pick (o : option Variant) :=
        match o with
        | Some chosen => inr (v_video_uri chosen, v_audio_uri chosen)
        | None => inl (IndexError "list index out of range")
        end in
      match desired_resolution with
      | Some (_, Some target_h) => pick (chosen_variant variants (Some target_h))
      | Some (_, None) =>
          if existsb (fun v => bool_decide (is_Some (v_res v))) variants
          then inl (TypeError "'<=' not supported between instances of 'int' and 'NoneType'")
          else pick (py_last variants)
      | None => pick (chosen_variant variants None)
      end
  end.
End HlsVariants.

(** ** The parsed DASH manifest (the [mpegdash] nodes the code reads)

    Child lists and attributes the parser did not find are [None]. *)

Record SegmentURL := { su_media : option string }.

Record SegmentList := { sl_segment_urls : option (list SegmentURL) }.

Record Representation := {
  r_width : option Z;
  r_height : option Z;
  r_segment_lists : option (list SegmentList)
}.

Record ContentProtection := { cp_cenc_default_kid : option string }.

Record AdaptationSet := {
  as_mime_type : option string;
  as_representations : option (list Representation);
  as_content_protections : option (list ContentProtection)
}.

Record Period := { pe_adaptation_sets : option (list AdaptationSet) }.

Record MPEGDASH := { mpd_periods : option (list Period) }.

(** A resolution as [download] passes it around: the pair
    [(r.width, r.height)] of a representation, or the caller's pair. *)
Abbreviation Resolution := (option Z * option Z)%type.

(** ** Small error-monad helpers for pure code *)

Definition rbind {A B} (r : res A) (f : A -> res B) : res B :=
  match r with
  | inl e => inl e
  | inr a => f a
  end.

(** [x[0]] on an attribute that may be [None]. *)
Definition subscript0 {A} (o : option (list A)) : res A :=
  match o with
  | None => inl (TypeError "'NoneType' object is not subscriptable")
  | Some [] => inl (IndexError "list index out of range")
  | Some (x :: _) => inr x
  end.

(** [for x in o] on an attribute that may be [None]. *)
Definition iterate {A} (o : option (list A)) : res (list A) :=
  match o with
  | None => inl (TypeError "'NoneType' object is not iterable")
  | Some l => inr l
  end.

(** [l.index(x)]: the position of the first element equal to [x]. *)
Fixpoint list_index `{EqDecision A} (x : A) (l : list A) : option nat :=
  match l with
  | [] => None
  | y :: l' => if decide (y = x) then Some 0%nat else S <$> list_index x l'
  end.

(** ** Variant Resolver, DASH side *)

Definition rep_resolution (r : Representation) : Resolution :=
  (r_width r, r_height r).

(** The guarded index expression of [_get_segments_urls]:
    [[(r.width, r.height) for r in reps].index(resolution)
     if reps[0].height else 0]. *)
Definition representation_index (a : AdaptationSet) (want : Resolution)
    : res nat :=
  rbind (subscript0 (as_representations a)) (fun r0 =>
  if truthy_int (r_height r0) then
    match list_index want (map rep_resolution (default [] (as_representations a))) with
    | Some i => inr i
    | None => inl (ValueError "tuple.index(x): x not in tuple")
    end
  else inr 0%nat).

(** [[seg.media for seg in rep.segment_lists[0].segment_urls
      if seg.media is not None]]. *)
Definition representation_segments (r : Representation) : res (list string) :=
  rbind (subscript0 (r_segment_lists r)) (fun sl =>
  rbind (iterate (sl_segment_urls sl)) (fun urls =>
  inr (omap su_media urls))).

(** The value the dict comprehension computes for one adaptation set. *)
Definition adaptation_set_segments (a : AdaptationSet) (want : Resolution)
    : res (list string) :=
  rbind (representation_index a want) (fun i =>
  match default [] (as_representations a) !! i with
  | Some r => representation_segments r
  | None => inl (IndexError "list index out of range")
  end).

(** The dict comprehension: entries are stored in iteration order, a later
    adaptation set with the same mime type replaces the earlier entry. *)
Fixpoint segments_dict (sets : list AdaptationSet) (want : Resolution)
    (d : gmap (option string) (list string))
    : res (gmap (option string) (list string)) :=
  match sets with
  | [] => inr d
  | a :: sets' =>
      rbind (adaptation_set_segments a want) (fun segs =>
      segments_dict sets' want (<[as_mime_type a := segs]> d))
  end.

(** [self.mpd_master.periods[0].adaptation_sets], iterated. *)
Definition first_period_sets (mpd_master : option MPEGDASH)
    : res (list AdaptationSet) :=
  match mpd_master with
  | None => inl (AttributeError "'NoneType' object has no attribute 'periods'")
  | Some mpd =>
      rbind (subscript0 (mpd_periods mpd)) (fun p =>
      iterate (pe_adaptation_sets p))
  end.

Definition _get_segments_urls (mpd_master : option MPEGDASH) (want : Resolution)
    : res (gmap (option string) (list string)) :=
  match rbind (first_period_sets mpd_master) (fun sets =>
               segments_dict sets want ∅) with
  | inl (ValueError _) => inl (InvalidResolution "Invalid resolution specified")
  | r => r
  end.

(** [get_resolutions] on a DASH manifest: the first adaptation set whose
    first representation declares a height, its representations sorted by
    height.  Sorting two or more keys of which one is [None] raises
    [TypeError]. *)
Definition sorted_by_height (reps : list Representation)
    : res (list Representation) :=
  match reps with
  | [] | [_] => inr reps
  | _ =>
      if forallb (fun r => bool_decide (is_Some (r_height r))) reps
      then inr (py_sorted Z.leb (fun r => default 0 (r_height r)) reps)
      else inl (TypeError "'<' not supported between instances of 'NoneType' and 'int'")
  end.

Fixpoint resolutions_of_sets (sets : list AdaptationSet)
    : res (option (list Resolution)) :=
  match sets with
  | [] => inr None
  | a :: sets' =>
      rbind (subscript0 (as_representations a)) (fun r0 =>
      if truthy_int (r_height r0) then
        rbind (sorted_by_height (default [] (as_representations a))) (fun l =>
        inr (Some (map rep_resolution l)))
      else resolutions_of_sets sets')
  end.

(** ** Segment Retriever: the deduplication of [_fetch_segments]

    [[seg for i, seg in enumerate(segments_urls)
      if seg and i == segments_urls.index(seg)]]. *)
Definition dedupe_segments (segments_urls : list string) : list string :=
  omap id
    (imap (fun i seg =>
             if negb (String.eqb seg "")
                && bool_decide (list_index seg segments_urls = Some i)
             then Some seg else None)
          segments_urls).

(** Stated from the specification's words, for comparison with
    [dedupe_segments]: duplicates collapse to their first occurrence,
    order otherwise preserved. *)
Fixpoint collapse_from (seen l : list string) : list string :=
  match l with
  | [] => []
  | x :: l' =>
      if bool_decide (x ∈ seen) then collapse_from seen l'
      else x :: collapse_from (x :: seen) l'
  end.

Definition collapse_duplicates (l : list string) : list string :=
  collapse_from [] l.

(** ** The world the engine runs in *)

Inductive PlaylistType := hls | dash.

(** What the engine does to the outside, in the order it does it.
    Status lines of [download] and of the verifier are recorded; the
    progress bar is not. *)
Inductive event :=
| EvGet (url : string)
| EvPost (url payload : string)
| EvPopen (args : list string)
| EvRun (args : list string)
| EvPrint (line : string).

(** An HTTP response as the code reads it.  Reading [content] of a
    streamed response is the step that can raise. *)
Record Response := {
  status_code : Z;
  text : string;
  content : res string
}.

(** A finished subprocess: exit code, the lines of its two pipes, and the
    bytes it left at its output path, if it wrote any. *)
Record Completed := {
  returncode : Z;
  stdout : list string;
  stderr : list string;
  output : option string
}.

(** What [ffprobe -show_streams -show_format -of json] reports, after
    [json.loads]: the [codec_type] of every stream and the text of
    [format.duration], each when present. *)
Record ProbeMeta := {
  streams : list (option string);
  format_duration : option string
}.

(** The environment: answers of the network and of subprocesses may
    depend on everything that happened before (the trace, newest event
    first); library functions are pure. *)
Record Env := {
  http_get : list event -> string -> res Response;
  http_post : list event -> string -> string -> res Response;
  spawn : list event -> list string -> res Completed;
  which : string -> option string;
  path_exists : string -> bool;
  sibling : string -> string -> string;
  urljoin : string -> string -> string;
  str_lower : string -> string;
  m3u8_loads : string -> res M3U8;
  mpd_parse : string -> res MPEGDASH;
  int_after_equals : string -> res Z;
  b64_of_hex : string -> res string;
  json_first_key : string -> res string;
  hex_of_b64 : string -> res string;
  json_loads : string -> res ProbeMeta;
  float_of_str : string -> option Q;
  with_suffix_mp4 : string -> string
}.

(** The fields of [self] that [download] only reads. *)
Record Config := {
  video_id : string;
  hls_master_playlist_url : string;
  mpd_master_playlist_url : string;
  clearkey_license_url : string;
  temp_path : string;
  ffmpeg_path : string;
  mp4decrypt_path : string;
  base_url : string;
  preferred_audio_lang : option string
}.

(** The fields of [self] that [download] assigns, the files, and the
    trace. *)
Record State := {
  playlist_url : string;
  playlist_type : PlaylistType;
  mpd_master : option MPEGDASH;
  files : gmap string string;
  trace : list event
}.

(** ** The monad: state that survives a raised exception *)

Definition M (A : Type) : Type := State -> res A * State.

Definition ret {A} (a : A) : M A := fun s => (inr a, s).

Definition raise {A} (e : exn) : M A := fun s => (inl e, s).

Definition bind {A B} (m : M A) (f : A -> M B) : M B :=
  fun s =>
    match m s with
    | (inl e, s') => (inl e, s')
    | (inr a, s') => f a s'
    end.

(** [try: body except Exception as e: handler]. *)
Definition try_except {A} (body : M A) (handler : exn -> M A) : M A :=
  fun s =>
    match body s with
    | (inl e, s') => handler e s'
    | (inr a, s') => (inr a, s')
    end.

(** The outcome of a block as a value, for code that goes on after its
    [except] clause. *)
Definition attempt {A} (body : M A) : M (res A) :=
  fun s => let '(r, s') := body s in (inr r, s').

Definition lift {A} (r : res A) : M A := fun s => (r, s).

Definition gets {A} (f : State -> A) : M A := fun s => (inr (f s), s).

Definition modify (f : State -> State) : M unit := fun s => (inr tt, f s).

Declare Scope m_scope.
Delimit Scope m_scope with M.
Notation "x <- m ;; k" := (bind m (fun x => k))
  (at level 100, m at next level, right associativity) : m_scope.
Notation "m ;; k" := (bind m (fun _ => k))
  (at level 100, right associativity) : m_scope.
Open Scope m_scope.

Fixpoint for_each {A} (l : list A) (body : A -> M unit) : M unit :=
  match l with
  | [] => ret tt
  | x :: l' => body x ;; for_each l' body
  end.

(** State updates. *)
Definition push (ev : event) (s : State) : State :=
  {| playlist_url := playlist_url s;
     playlist_type := playlist_type s;
     mpd_master := mpd_master s;
     files := files s;
     trace := ev :: trace s |}.

Definition map_files (f : gmap string string -> gmap string string) (s : State)
    : State :=
  {| playlist_url := playlist_url s;
     playlist_type := playlist_type s;
     mpd_master := mpd_master s;
     files := f (files s);
     trace := trace s |}.

Definition emit (ev : event) : M unit := modify (push ev).

Definition set_files (f : gmap string string -> gmap string string) : M unit :=
  modify (map_files f).

Definition set_playlist (url : string) (t : PlaylistType) : M unit :=
  modify (fun s => {| playlist_url := url;
                      playlist_type := t;
                      mpd_master := mpd_master s;
                      files := files s;
                      trace := trace s |}).

Definition set_mpd_master (m : option MPEGDASH) : M unit :=
  modify (fun s => {| playlist_url := playlist_url s;
                      playlist_type := playlist_type s;
                      mpd_master := m;
                      files := files s;
                      trace := trace s |}).

Definition print (line : string) : M unit := emit (EvPrint line).

Definition nl : string := String (Ascii.ascii_of_nat 10) "".

(** [s.replace(c, '')]. *)
Fixpoint remove_char (c : Ascii.ascii) (s : string) : string :=
  match s with
  | EmptyString => EmptyString
  | String a s' =>
      if Ascii.eqb a c then remove_char c s' else String a (remove_char c s')
  end.

(** ** The methods of [VideoDownloader] *)
Section Downloader.
Variable env : Env.
Variable cfg : Config.

(** [f"{KINESCOPE_BASE_URL}/{video_id}?autoplay=1"]; every request
    carries it as referer. *)
Definition _cdn_referer : string :=
  "https://kinescope.io/" +:+ video_id cfg +:+ "?autoplay=1".

(** *** Primitive effects *)

Definition get (url : string) : M Response :=
  h <- gets trace ;;
  emit (EvGet url) ;;
  lift (http_get env h url).

Definition post (url payload : string) : M Response :=
  h <- gets trace ;;
  emit (EvPost url payload) ;;
  lift (http_post env h url payload).

(** [r.raise_for_status()]. *)
Definition raise_for_status (r : Response) : M unit :=
  if (400 <=? status_code r) && (status_code r <? 600)
  then raise (OtherException "HTTPError" (pretty (status_code r) +:+ " Error"))
  else ret tt.

(** Start a process and wait for it; what it wrote lands at [target]. *)
Definition run_process (ev : list string -> event) (args : list string)
    (target : option string) : M Completed :=
  h <- gets trace ;;
  emit (ev args) ;;
  c <- lift (spawn env h args) ;;
  match target, output c with
  | Some path, Some bytes => set_files (fun fs => <[path := bytes]> fs)
  | _, _ => ret tt
  end ;;
  ret c.

(** [Path.unlink(missing_ok=True)]. *)
Definition unlink (path : string) : M unit :=
  set_files (fun fs => delete path fs).

(** [Path.rename]: the source must exist, the target is replaced. *)
Definition rename (src dst : string) : M unit :=
  fs <- gets files ;;
  match fs !! src with
  | Some bytes => set_files (fun fs => <[dst := bytes]> (delete src fs))
  | None => raise (FileNotFoundError src)
  end.

(** [open(path, 'wb')] and writing to the open file. *)
Definition open_wb (path : string) : M unit :=
  set_files (fun fs => <[path := ""]> fs).

Definition write (path bytes : string) : M unit :=
  set_files (fun fs => <[path := default "" (fs !! path) +:+ bytes]> fs).

(** *** Output Verifier *)

Definition _ffprobe_path : option string :=
  let near := [sibling env (ffmpeg_path cfg) "ffprobe";
               sibling env (ffmpeg_path cfg) "ffprobe.exe"] in
  let on_path :=
    omap (fun name => match which env name with
                      | Some p => if String.eqb p "" then None else Some p
                      | None => None
                      end) ["ffprobe"; "ffprobe.exe"] in
  head (filter (fun c => path_exists env c = true) (near ++ on_path)).

Definition has_stream (kind : string) (meta : ProbeMeta) : bool :=
  existsb (fun codec_type => bool_decide (codec_type = Some kind)) (streams meta).

(** [float(meta.get('format', {}).get('duration', '0') or 0.0)], with
    [0.0] when the conversion raises.  A finite float is the rational
    it denotes. *)
Definition duration_of (meta : ProbeMeta) : Q :=
  match format_duration meta with
  | None => 0%Q
  | Some d =>
      if String.eqb d "" then 0%Q
      else match float_of_str env d with
           | Some q => q
           | None => 0%Q
           end
  end.

(** The test that guards the rejection. *)
Definition rejected (meta : ProbeMeta) (require_audio : bool) : bool :=
  negb (has_stream "video" meta)
  || Qle_bool (duration_of meta) (1 # 2)
  || (require_audio && negb (has_stream "audio" meta)).

Definition validation_failed : exn :=
  RuntimeError "Output validation failed (no video/audio or zero duration)".

Definition probe_args (probe filepath : string) : list string :=
  [probe; "-v"; "error"; "-show_streams"; "-show_format"; "-of"; "json"; filepath].

(** [proc.stdout or '{}']: the text of the pipe, its lines joined. *)
Definition probe_stdout (proc : Completed) : string :=
  let out := String.concat "" (stdout proc) in
  if String.eqb out "" then "{}" else out.

(** [subprocess.run(..., check=True)]. *)
Definition run_checked (args : list string) : M Completed :=
  c <- run_process EvRun args None ;;
  if returncode c =? 0 then ret c
  else raise (OtherException "CalledProcessError"
                ("Command returned non-zero exit status " +:+ pretty (returncode c) +:+ ".")).

Definition _verify_output_or_raise (filepath : string) (require_audio : bool)
    : M unit :=
  match _ffprobe_path with
  | None => print "[*] Warning: ffprobe not found. Skipping validation."
  | Some probe =>
      r <- attempt (run_checked (probe_args probe filepath)) ;;
      match r with
      | inl e =>
          print ("[*] Warning: ffprobe failed: " +:+ exn_str e +:+ ". Skipping validation.")
      | inr proc =>
          meta <- lift (json_loads env (probe_stdout proc)) ;;
          if rejected meta require_audio then
            unlink filepath ;;
            raise validation_failed
          else ret tt
      end
  end.

(** *** Manifest Fetcher *)

Definition _load_hls_master : M M3U8 :=
  url <- gets playlist_url ;;
  r <- get url ;;
  raise_for_status r ;;
  lift (m3u8_loads env (text r)).

Definition _fetch_mpd_master : M MPEGDASH :=
  url <- gets playlist_url ;;
  r <- get url ;;
  lift (mpd_parse env (text r)).

(** *** Variant Resolver *)

Definition get_hls_variants : M (list Variant) :=
  pl <- _load_hls_master ;;
  url <- gets playlist_url ;;
  ret (hls_variants_of (urljoin env) (str_lower env) url
         (preferred_audio_lang cfg) pl).

Definition _select_hls_variant_urls (desired_resolution : option Resolution)
    : M (string * option string) :=
  variants <- get_hls_variants ;;
  url <- gets playlist_url ;;
  lift (select_from url variants desired_resolution).

Definition get_resolutions : M (option (list Resolution)) :=
  t <- gets playlist_type ;;
  mpd <- gets mpd_master ;;
  match t, mpd with
  | dash, Some _ =>
      sets <- lift (first_period_sets mpd) ;;
      lift (resolutions_of_sets sets)
  | _, _ => ret None
  end.

(** *** Media Assembler *)

(** The [_dur] helper of [_download_hls_via_ffmpeg]: whatever goes
    wrong is swallowed by the caller, and the duration only sizes the
    progress bar, so only the request is kept. *)
Definition _dur (url : string) : M unit :=
  r <- get url ;;
  raise_for_status r ;;
  _ <- lift (m3u8_loads env (text r)) ;;
  ret tt.

Definition hls_args (video_m3u8_url : string) (audio_m3u8_url : option string)
    (target_filepath : string) : list string :=
  [ffmpeg_path cfg; "-headers"; "Referer: " +:+ _cdn_referer; "-i"; video_m3u8_url]
  ++ (if truthy_str audio_m3u8_url
      then ["-headers"; "Referer: " +:+ _cdn_referer;
            "-i"; default "" audio_m3u8_url;
            "-map"; "0:v:0"; "-map"; "1:a:0?"; "-map"; "0:a:0?"]
      else ["-map"; "0:v:0"; "-map"; "0:a:0?"])
  ++ ["-c"; "copy"; "-sn"; "-f"; "mp4"; target_filepath; "-y";
      "-progress"; "pipe:1"; "-nostats"; "-loglevel"; "error"].

(** The loop over [proc.stdout]: every line that starts with
    [out_time_ms] is parsed with [int(line.split("=")[1].strip())]. *)
Definition read_progress (lines : list string) : M unit :=
  for_each lines (fun line =>
    if String.prefix "out_time_ms" line
    then _ <- lift (int_after_equals env line) ;; ret tt
    else ret tt).

Definition ffmpeg_failed (return_code : Z) (err : string) : exn :=
  RuntimeError ("ffmpeg failed with code " +:+ pretty return_code
                +:+ ". Trace:" +:+ nl +:+ err).

Definition _download_hls_via_ffmpeg (video_m3u8_url : string)
    (audio_m3u8_url : option string) (target_filepath : string) : M unit :=
  _ <- attempt (_dur video_m3u8_url) ;;
  (if truthy_str audio_m3u8_url
   then _ <- attempt (_dur (default "" audio_m3u8_url)) ;; ret tt
   else ret tt) ;;
  proc <- run_process EvPopen
            (hls_args video_m3u8_url audio_m3u8_url target_filepath)
            (Some target_filepath) ;;
  read_progress (stdout proc) ;;
  let return_code := returncode proc in
  if return_code =? 0 then ret tt
  else
    let err := String.concat "" (py_lastn 20 (stderr proc)) in
    unlink target_filepath ;;
    raise (ffmpeg_failed return_code err).

Definition merge_args (source_video_filepath source_audio_filepath
    target_filepath : string) : list string :=
  [ffmpeg_path cfg; "-i"; source_video_filepath; "-i"; source_audio_filepath;
   "-c"; "copy"; target_filepath; "-y"; "-loglevel"; "error"].

(** [Popen(...).communicate()] under [except FileNotFoundError]: the
    exit code of the process is not looked at. *)
Definition _merge_tracks (source_video_filepath source_audio_filepath
    target_filepath : string) : M unit :=
  try_except
    (_ <- run_process EvPopen
            (merge_args source_video_filepath source_audio_filepath target_filepath)
            (Some target_filepath) ;;
     ret tt)
    (fun e => match e with
              | FileNotFoundError _ =>
                  raise (FFmpegNotFoundError
                           "FFmpeg binary was not found at the specified path")
              | _ => raise e
              end).

Definition decrypt_args (source_filepath target_filepath key : string)
    : list string :=
  [mp4decrypt_path cfg; "--key"; "1:" +:+ key; source_filepath; target_filepath].

Definition _decrypt_video (source_filepath target_filepath key : string)
    : M unit :=
  try_except
    (_ <- run_process EvPopen
            (decrypt_args source_filepath target_filepath key)
            (Some target_filepath) ;;
     ret tt)
    (fun e => match e with
              | FileNotFoundError _ =>
                  raise (Mp4DecryptNotFoundError
                           "mp4decrypt binary was not found at the specified path")
              | _ => raise e
              end).

(** *** License Client *)

Definition license_payload (kid_hex : string) : res string :=
  rbind (b64_of_hex env kid_hex) (fun b => inr (remove_char "="%char b)).

Definition _get_license_key : M (option string) :=
  mpd <- gets mpd_master ;;
  match mpd with
  | None => ret None
  | Some m =>
      p <- lift (subscript0 (mpd_periods m)) ;;
      a <- lift (subscript0 (pe_adaptation_sets p)) ;;
      match as_content_protections a with
      | None | Some [] => ret None
      | Some (cp :: _) =>
          match cp_cenc_default_kid cp with
          | None => raise (AttributeError "'NoneType' object has no attribute 'replace'")
          | Some kid =>
              let kid_hex := remove_char "-"%char kid in
              payload <- lift (license_payload kid_hex) ;;
              r <- post (clearkey_license_url cfg) payload ;;
              k <- lift (json_first_key env (text r)) ;;
              key <- lift (hex_of_b64 env (k +:+ "==")) ;;
              ret (Some key)
          end
      end
  end.

(** *** Segment Retriever *)

(** One pass of the loop body of [_fetch_segment]. *)
Definition fetch_once (segment_url file : string) : M unit :=
  let url := if String.prefix "http" segment_url then segment_url
             else urljoin env (base_url cfg) segment_url in
  resp <- get url ;;
  bytes <- lift (content resp) ;;
  write file bytes.

(** [for _ in range(n)] with the [return] on success and the
    [except ChunkedEncodingError: pass]. *)
Fixpoint fetch_loop (n : nat) (segment_url file : string) : M unit :=
  match n with
  | O => raise (SegmentDownloadError ("Failed to download segment " +:+ segment_url))
  | S n' =>
      try_except (fetch_once segment_url file)
        (fun e => match e with
                  | ChunkedEncodingError _ => fetch_loop n' segment_url file
                  | _ => raise e
                  end)
  end.

Definition _fetch_segment (segment_url file : string) : M unit :=
  fetch_loop 5 segment_url file.

Definition _fetch_segments (segments_urls : list string) (filepath : string)
    : M unit :=
  let segments_urls := dedupe_segments segments_urls in
  open_wb filepath ;;
  for_each segments_urls (fun segment_url => _fetch_segment segment_url filepath).

(** *** Retrieval Orchestrator *)

Definition track_path (kind suffix : string) : string :=
  temp_path cfg +:+ "/" +:+ video_id cfg +:+ "_" +:+ kind +:+ ".mp4" +:+ suffix.

(** The two statements that open both HLS attempts of [download]:
    select the variant, run the muxer into the temp file. *)
Definition hls_mux (resolution : option Resolution) (tmp_path : string)
    : M unit :=
  urls <- _select_hls_variant_urls resolution ;;
  _download_hls_via_ffmpeg urls.1 urls.2 tmp_path.

(** The body of the first [try] of [download]. *)
Definition hls_pipeline (resolution : option Resolution)
    (tmp_path filepath : string) : M unit :=
  hls_mux resolution tmp_path ;;
  print "[*] Saved via HLS" ;;
  _verify_output_or_raise tmp_path true ;;
  rename tmp_path filepath.

Definition hls_failed_line (e : exn) : string :=
  "[*] HLS failed: " +:+ exn_str e +:+ nl +:+ "[*] Falling back to DASH...".

Definition dash_failed_line (e : exn) : string :=
  "[*] DASH failed: " +:+ exn_str e +:+ nl +:+ "[*] Trying HLS...".

(** Its [except Exception as e] clause. *)
Definition fall_back_to_dash (e : exn) : M unit :=
  print (hls_failed_line e) ;;
  set_playlist (mpd_master_playlist_url cfg) dash ;;
  m <- _fetch_mpd_master ;;
  set_mpd_master (Some m).

(** The start of the second [try]: [if not resolution: ...].  The local
    variable [resolution] is assigned here, and the [except] clause
    reads it afterwards. *)
Definition pick_resolution (resolution : option Resolution) : M Resolution :=
  match resolution with
  | Some r => ret r
  | None =>
      res_list <- get_resolutions ;;
      match res_list with
      | Some (r :: l) => ret (default r (py_last (r :: l)))
      | _ => raise (InvalidResolution "Resolutions are not available for DASH manifest")
      end
  end.

(** The second [try] up to the temp file: license key, segment lists,
    segment files, decryption, merge. *)
Definition dash_assemble (resolution : Resolution) (tmp_path : string)
    : M unit :=
  key <- _get_license_key ;;
  let enc := if truthy_str key then ".enc" else "" in
  let video_target := track_path "video" enc in
  let audio_target := track_path "audio" enc in
  mpd <- gets mpd_master ;;
  segments <- lift (_get_segments_urls mpd resolution) ;;
  let video_segments := default [] (segments !! Some "video/mp4") in
  let audio_segments := default [] (segments !! Some "audio/mp4") in
  let has_audio := negb (bool_decide (audio_segments = [])) in
  _fetch_segments video_segments video_target ;;
  (if has_audio then _fetch_segments audio_segments audio_target else ret tt) ;;
  (if truthy_str key then
     print "[*] Decrypting..." ;;
     _decrypt_video (track_path "video" ".enc") (track_path "video" "")
       (default "" key) ;;
     (if has_audio then
        _decrypt_video (track_path "audio" ".enc") (track_path "audio" "")
          (default "" key)
      else ret tt) ;;
     print "Done"
   else ret tt) ;;
  (if has_audio then
     print "[*] Merging tracks..." ;;
     _merge_tracks (track_path "video" "") (track_path "audio" "") tmp_path ;;
     print "Done"
   else rename (track_path "video" "") tmp_path).

(** The rest of the second [try]. *)
Definition dash_pipeline (resolution : Resolution)
    (tmp_path filepath : string) : M unit :=
  dash_assemble resolution tmp_path ;;
  _verify_output_or_raise tmp_path true ;;
  rename tmp_path filepath ;;
  print "[*] Saved via DASH".

(** The [except Exception as e] clause of the second [try]. *)
Definition try_hls (e : exn) (resolution : option Resolution)
    (tmp_path filepath : string) : M unit :=
  print (dash_failed_line e) ;;
  set_playlist (hls_master_playlist_url cfg) hls ;;
  hls_mux resolution tmp_path ;;
  _verify_output_or_raise tmp_path true ;;
  rename tmp_path filepath ;;
  print "[*] Saved via HLS (fallback)".

(** The second [try] with its handler. *)
Definition dash_stage (resolution : option Resolution)
    (tmp_path filepath : string) : M unit :=
  r <- attempt (pick_resolution resolution) ;;
  match r with
  | inl e => try_hls e resolution tmp_path filepath
  | inr picked =>
      try_except (dash_pipeline picked tmp_path filepath)
        (fun e => try_hls e (Some picked) tmp_path filepath)
  end.

Definition download (filepath : string) (resolution : option Resolution)
    : M unit :=
  let filepath := with_suffix_mp4 env filepath in
  let tmp_path := filepath +:+ ".part" in
  t <- gets playlist_type ;;
  returned <- match t with
              | hls =>
                  try_except
                    (hls_pipeline resolution tmp_path filepath ;; ret true)
                    (fun e => fall_back_to_dash e ;; ret false)
              | dash => ret false
              end ;;
  if (returned : bool) then ret tt
  else dash_stage resolution tmp_path filepath.
End Downloader.

(** * Vocabulary of the specification *)

(** ** Ordering of variants *)




(** The height of a variant, [0] when its resolution is unknown. *)
Definition height_or_0 (v : Variant) : Z := (variant_key v).1.



(** A desired resolution whose height is an integer. *)
Definition desired (d : option (option Z * Z)) : option Resolution :=
  match d with
  | Some (w, h) => Some (w, Some h)
  | None => None
  end.

(** ** Matching representations *)

(** The adaptation set's first representation declares a non-zero
    height: the guard of the index expression. *)
Definition declares_height (a : AdaptationSet) : Prop :=
  ∃ r0 rest, as_representations a = Some (r0 :: rest)
             ∧ truthy_int (r_height r0) = true.




(** * Scenarios

    Concrete manifests, environments and states on which the properties
    below are evaluated. *)

(** ** A DASH manifest with a video and an audio adaptation set *)

Definition rep_of (w h : option Z) (urls : list string) : Representation :=
  {| r_width := w; r_height := h;
     r_segment_lists :=
       Some [ {| sl_segment_urls := Some (map (fun u => {| su_media := Some u |}) urls) |} ] |}.

Definition video_set (cps : option (list ContentProtection)) : AdaptationSet :=
  {| as_mime_type := Some "video/mp4";
     as_representations :=
       Some [ rep_of (Some 640) (Some 360) ["v360-1.m4s"; "v360-2.m4s"];
              rep_of (Some 1280) (Some 720) ["v720-1.m4s"; "v720-2.m4s"] ];
     as_content_protections := cps |}.

Definition audio_set : AdaptationSet :=
  {| as_mime_type := Some "audio/mp4";
     as_representations := Some [ rep_of None None ["a-1.m4s"; "a-2.m4s"] ];
     as_content_protections := None |}.

Definition mpd_of (sets : list AdaptationSet) : MPEGDASH :=
  {| mpd_periods := Some [ {| pe_adaptation_sets := Some sets |} ] |}.

Definition mpd_clear : MPEGDASH := mpd_of [video_set None; audio_set].

Definition res_720 : Resolution := (Some 1280, Some 720).

(** ** Segment fetches *)

(** The URL [_fetch_segment] requests for a segment URI. *)
Definition segment_request_url (env : Env) (cfg : Config) (segment_url : string)
    : string :=
  if String.prefix "http" segment_url then segment_url
  else urljoin env (base_url cfg) segment_url.

(** What one pass of the retry loop gets when the trace so far is [h]:
    the body of the response, or the exception of the request or of
    reading the body. *)
Definition attempt_outcome (env : Env) (h : list event) (url : string)
    : res string :=
  rbind (http_get env h url) content.

Definition is_chunked (r : res string) : Prop :=
  ∃ m, r = inl (ChunkedEncodingError m).


Definition nonempty (l : list string) : list string :=
  filter (fun seg => seg ≠ "") l.



(** ** An HLS master playlist with three variants, listed out of order *)

Definition stream (w h bw : Z) (uri : string) : Playlist :=
  {| p_stream_info := {| si_resolution := Some (w, h);
                         si_bandwidth := Some bw;
                         si_audio := None |};
     p_uri := uri |}.

Definition master3 : M3U8 :=
  {| pl_media := [];
     pl_playlists := [ stream 1920 1080 5000000 "1080.m3u8";
                       stream 640 360 800000 "360.m3u8";
                       stream 1280 720 2500000 "720.m3u8" ] |}.

(** ** A downloader and its surroundings *)

Definition cfg0 : Config :=
  {| video_id := "vid";
     hls_master_playlist_url := "https://kinescope.io/vid/master.m3u8";
     mpd_master_playlist_url := "https://kinescope.io/vid/master.mpd";
     clearkey_license_url :=
       "https://license.kinescope.io/v1/vod/vid/acquire/clearkey?token=";
     temp_path := "temp";
     ffmpeg_path := "./ffmpeg";
     mp4decrypt_path := "./mp4decrypt";
     base_url := "https://kinescope.io/vid/";
     preferred_audio_lang := None |}.

Definition ok_response (body : string) : Response :=
  {| status_code := 200; text := body; content := inr body |}.

Definition finished (code : Z) (out err : list string) (wrote : option string)
    : Completed :=
  {| returncode := code; stdout := out; stderr := err; output := wrote |}.

(** Three probe reports: video with audio, video only, and a clip of
    0.3 seconds. *)
Definition meta_av : ProbeMeta :=
  {| streams := [Some "video"; Some "audio"]; format_duration := Some "12.5" |}.

Definition meta_video_only : ProbeMeta :=
  {| streams := [Some "video"]; format_duration := Some "12.5" |}.

Definition meta_short : ProbeMeta :=
  {| streams := [Some "video"; Some "audio"]; format_duration := Some "0.3" |}.

Definition parse_meta (txt : string) : res ProbeMeta :=
  if String.eqb txt "av" then inr meta_av
  else if String.eqb txt "video-only" then inr meta_video_only
  else if String.eqb txt "short" then inr meta_short
  else inl (OtherException "JSONDecodeError" "Expecting value").

Definition parse_float (txt : string) : option Q :=
  if String.eqb txt "12.5" then Some (25 # 2)%Q
  else if String.eqb txt "0.3" then Some (3 # 10)%Q
  else None.

(** The prober is installed at [/usr/bin/ffprobe]. *)
Definition is_probe (args : list string) : bool :=
  bool_decide (head args = Some "/usr/bin/ffprobe").



(** An environment in which every GET answers 200 with the URL as body,
    and which is given the behaviour of the license endpoint, of the
    subprocesses and the DASH manifest. *)
Definition scenario
    (license : list event -> string -> string -> res Response)
    (processes : list event -> list string -> res Completed)
    (mpd : MPEGDASH) : Env :=
  {| http_get := fun _ url => inr (ok_response url);
     http_post := license;
     spawn := processes;
     which := fun name => if String.eqb name "ffprobe"
                          then Some "/usr/bin/ffprobe" else None;
     path_exists := fun p => String.eqb p "/usr/bin/ffprobe";
     sibling := fun _ name => "./" +:+ name;
     urljoin := fun _ u => "https://kinescope.io/vid/" +:+ u;
     str_lower := fun s => s;
     m3u8_loads := fun _ => inr master3;
     mpd_parse := fun _ => inr mpd;
     int_after_equals := fun _ => inr 0;
     b64_of_hex := fun s => inr s;
     json_first_key := fun s => inr s;
     hex_of_b64 := fun s => inr s;
     json_loads := parse_meta;
     float_of_str := parse_float;
     with_suffix_mp4 := fun s => s |}.

(** The license endpoint answers 500 to every request: with the retry
    policy of [_init_http] the session raises once its retries are used
    up. *)
Definition license_down : list event -> string -> string -> res Response :=
  fun _ _ _ => inl (OtherException "RetryError" "too many 500 error responses").

(** Every tool exits with 0; the prober reports video and audio. *)
Definition tools_fine : list event -> list string -> res Completed :=
  fun _ args =>
    if is_probe args then inr (finished 0 ["av"] [] None)
    else inr (finished 0 [] [] (Some "mp4")).

Definition env_fine : Env := scenario license_down tools_fine mpd_clear.

Definition state0 (t : PlaylistType) (mpd : option MPEGDASH) : State :=
  {| playlist_url := match t with
                     | hls => hls_master_playlist_url cfg0
                     | dash => mpd_master_playlist_url cfg0
                     end;
     playlist_type := t;
     mpd_master := mpd;
     files := ∅;
     trace := [] |}.

(** ** Acceptance by the Output Verifier *)


(** The prober reports a clip of 0.3 seconds; every other tool exits
    with 1 after writing part of its output and two lines of
    diagnostics. *)
Definition tools_failing : list event -> list string -> res Completed :=
  fun _ args =>
    if is_probe args then inr (finished 0 ["short"] [] None)
    else inr (finished 1 [] ["line 1" +:+ nl; "line 2" +:+ nl] (Some "partial")).

Definition env_failing : Env := scenario license_down tools_failing mpd_clear.

(** A state in which the temp file exists. *)
Definition with_file (path bytes : string) (s : State) : State :=
  map_files (fun fs => <[path := bytes]> fs) s.

(** ** Counting events *)

Definition count (f : event → bool) (evs : list event) : nat :=
  length (filter (λ ev, f ev = true) evs).

(** Whatever the state, the computation only adds events to the trace,
    and at most [n] of them satisfy [f]. *)
Definition emits_at_most {A} (f : event → bool) (n : nat) (m : M A) : Prop :=
  ∀ s, ∃ evs, trace (m s).2 = evs ++ trace s ∧ (count f evs ≤ n)%nat.


(** The status line of the second [except] clause: the edge from DASH
    to HLS. *)
Definition is_dash_failed (ev : event) : bool :=
  match ev with
  | EvPrint line => String.prefix "[*] DASH failed: " line
  | _ => false
  end.

(** A run of the HLS muxer: the only command line whose second word is
    [-headers]. *)
Definition is_mux (ev : event) : bool :=
  match ev with
  | EvPopen args => bool_decide (args !! 1%nat = Some "-headers")
  | _ => false
  end.

Definition is_post (ev : event) : bool :=
  match ev with
  | EvPost _ _ => true
  | _ => false
  end.

(** The status lines other than the two above. *)
Inductive status_line : string → Prop :=
| line_saved_hls : status_line "[*] Saved via HLS"
| line_saved_dash : status_line "[*] Saved via DASH"
| line_saved_fallback : status_line "[*] Saved via HLS (fallback)"
| line_decrypting : status_line "[*] Decrypting..."
| line_merging : status_line "[*] Merging tracks..."
| line_done : status_line "Done"
| line_no_probe :
    status_line "[*] Warning: ffprobe not found. Skipping validation."
| line_probe_failed e :
    status_line ("[*] Warning: ffprobe failed: " +:+ exn_str e
                 +:+ ". Skipping validation.").

(** ** Scenarios for the orchestrator *)

(** The manifest of an encrypted video: the first adaptation set carries
    a content-protection descriptor with a key id. *)
Definition mpd_protected : MPEGDASH :=
  mpd_of [ video_set (Some [ {| cp_cenc_default_kid :=
                                  Some "0123-4567-89ab-cdef" |} ]);
           audio_set ].

(** The license endpoint is down; everything else works. *)
Definition env_license_down : Env :=
  scenario license_down tools_fine mpd_protected.



(** The muxer exits with 1 every time. *)
Definition tools_mux_fails : list event -> list string -> res Completed :=
  fun _ args =>
    if is_probe args then inr (finished 0 ["av"] [] None)
    else inr (finished 1 [] ["muxer gave up" +:+ nl] (Some "partial")).

Definition env_no_chance : Env :=
  scenario license_down tools_mux_fails mpd_protected.




(** The manifest declares content protection with key id [kid] in its
    first adaptation set. *)
Definition protected_with (mpd : option MPEGDASH) (kid : string) : Prop :=
  ∃ m p ps a sets cp cps,
    mpd = Some m
    ∧ mpd_periods m = Some (p :: ps)
    ∧ pe_adaptation_sets p = Some (a :: sets)
    ∧ as_content_protections a = Some (cp :: cps)
    ∧ cp_cenc_default_kid cp = Some kid.

(** ** Files that a computation leaves alone *)

(** The computation never changes what is stored at [path]. *)
Definition keeps {A} (path : string) (m : M A) : Prop :=
  ∀ s, files (m s).2 !! path = files s !! path.

(** The computation does not change what is stored at [path] when it
    raises. *)
Definition keeps_on_failure {A} (path : string) (m : M A) : Prop :=
  ∀ s e, (m s).1 = inl e → files (m s).2 !! path = files s !! path.

(** ** A prober that runs *)






(** * Further parts of the engine *)

(** ** Protocol Detector *)

(** [needle in hay] on strings. *)
Fixpoint contains (needle hay : string) : bool :=
  String.prefix needle hay
  || match hay with
     | EmptyString => false
     | String _ hay' => contains needle hay'
     end.

(** [_detect_master].  [content_type_of h url] is
    [r.headers.get('Content-Type', '')] of the response that the request
    of [url] gets when the trace so far is [h]. *)
Definition _detect_master (env : Env) (cfg : Config)
    (content_type_of : list event → string → string)
    : M (string * PlaylistType) :=
  let hls_url := hls_master_playlist_url cfg in
  h <- gets trace ;;
  r <- get env hls_url ;;
  if (status_code r =? 200)
     && (contains "#EXTM3U" (text r)
         || contains "application/vnd.apple.mpegurl" (content_type_of h hls_url))
  then ret (hls_url, hls)
  else
    let dash_url := mpd_master_playlist_url cfg in
    r <- get env dash_url ;;
    if (status_code r =? 200) && contains "<MPD" (text r)
    then ret (dash_url, dash)
    else raise (VideoNotFound "Master playlist not found (neither HLS nor DASH)").

(** ** Vocabulary for the further properties *)

(** [needle] occurs in [hay]. *)
Definition occurs_in (needle hay : string) : Prop :=
  ∃ before after, hay = before +:+ needle +:+ after.



(** The height a resolution is sorted by. *)
Definition height_of (r : Resolution) : Z := default 0 r.2.

(** The bodies of the segments, one after the other. *)
Definition concat_bodies (body : string → string) (urls : list string) : string :=
  foldr (λ u acc, body u +:+ acc) "" urls.

(** The temp-directory files of the DASH path. *)
Definition track_paths (cfg : Config) : list string :=
  [track_path cfg "video" ""; track_path cfg "video" ".enc";
   track_path cfg "audio" ""; track_path cfg "audio" ".enc"].

(** ** Scenarios for the further properties *)

(** The prober exits with 1. *)
Definition tools_probe_exits_1 : list event -> list string -> res Completed :=
  fun _ args =>
    if is_probe args then inr (finished 1 [] ["Invalid data found" +:+ nl] None)
    else inr (finished 0 [] [] (Some "mp4")).

Definition env_probe_exits_1 : Env :=
  scenario license_down tools_probe_exits_1 mpd_clear.

(** The prober prints something that is not JSON. *)
Definition tools_probe_garbage : list event -> list string -> res Completed :=
  fun _ args =>
    if is_probe args then inr (finished 0 ["not json"] [] None)
    else inr (finished 0 [] [] (Some "mp4")).

Definition env_probe_garbage : Env :=
  scenario license_down tools_probe_garbage mpd_clear.

(** The candidates of [_ffprobe_path], in the order they are tried. *)
Definition ffprobe_candidates (env : Env) (cfg : Config) : list string :=
  [sibling env (ffmpeg_path cfg) "ffprobe";
   sibling env (ffmpeg_path cfg) "ffprobe.exe"]
  ++ omap (fun name => match which env name with
                       | Some p => if String.eqb p "" then None else Some p
                       | None => None
                       end) ["ffprobe"; "ffprobe.exe"].

(** The duration of the probe report cannot be read. *)
Definition duration_unreadable (env : Env) (meta : ProbeMeta) : Prop :=
  format_duration meta = None
  ∨ ∃ d, format_duration meta = Some d ∧ (d = "" ∨ float_of_str env d = None).

(** The license endpoint answers with the key material [k]. *)
Definition license_up (k : string) : list event -> string -> string -> res Response :=
  fun _ _ _ => inr (ok_response k).

Definition env_license_up : Env :=
  scenario (license_up "a2V5") tools_fine mpd_protected.

(** The first adaptation set of the manifest carries no content
    protection. *)
Definition unprotected (mpd : option MPEGDASH) : Prop :=
  mpd = None
  ∨ ∃ m p ps a sets,
      mpd = Some m
      ∧ mpd_periods m = Some (p :: ps)
      ∧ pe_adaptation_sets p = Some (a :: sets)
      ∧ (as_content_protections a = None ∨ as_content_protections a = Some []).

(** The characters of a string. *)
Fixpoint chars (s : string) : list ascii :=
  match s with
  | EmptyString => []
  | String a s' => a :: chars s'
  end.

(** A run of the merger or of the decryptor: a command line that is not
    the HLS muxer's. *)
Definition is_tool (ev : event) : bool :=
  match ev with
  | EvPopen args => negb (bool_decide (args !! 1%nat = Some "-headers"))
  | _ => false
  end.

(** The trace when [_download_hls_via_ffmpeg] starts the muxer: the
    playlist of the video and, when there is one, of the audio have been
    requested for their durations. *)
Definition trace_at_mux (video_m3u8_url : string) (audio_m3u8_url : option string)
    (s : State) : list event :=
  (if truthy_str audio_m3u8_url then [EvGet (default "" audio_m3u8_url)] else [])
  ++ EvGet video_m3u8_url :: trace s.


(** The muxer is not installed. *)
Definition tools_missing : list event -> list string -> res Completed :=
  fun _ _ => inl (FileNotFoundError "[Errno 2] No such file or directory").

Definition env_tools_missing : Env :=
  scenario license_down tools_missing mpd_clear.





(** The temp file is gone and the final path holds a file. *)
Definition moved_into_place (tmp final : string) (s : State) : Prop :=
  files s !! tmp = None ∧ is_Some (files s !! final).

(** The segment server answers 404 pages for one segment and the body
    for the others; with [stream=True] the body of a 404 is copied like
    any other, so a failure is modelled as a connection error. *)
Definition get_failing_on (bad : string) : list event → string → res Response :=
  fun _ url =>
    if String.eqb url bad then inl (OtherException "ConnectionError" "reset")
    else inr (ok_response url).

Definition with_http_get (g : list event → string → res Response) (env : Env)
    : Env :=
  {| http_get := g;
     http_post := http_post env;
     spawn := spawn env;
     which := which env;
     path_exists := path_exists env;
     sibling := sibling env;
     urljoin := urljoin env;
     str_lower := str_lower env;
     m3u8_loads := m3u8_loads env;
     mpd_parse := mpd_parse env;
     int_after_equals := int_after_equals env;
     b64_of_hex := b64_of_hex env;
     json_first_key := json_first_key env;
     hex_of_b64 := hex_of_b64 env;
     json_loads := json_loads env;
     float_of_str := float_of_str env;
     with_suffix_mp4 := with_suffix_mp4 env |}.

Definition env_segment_b_fails : Env :=
  with_http_get (get_failing_on "https://kinescope.io/vid/b.m4s") env_fine.

(** The manifest URLs answer 404 with an error page. *)
Definition get_404 : list event → string → res Response :=
  fun _ _ => inr {| status_code := 404; text := "<html>Not Found</html>";
                    content := inr "<html>Not Found</html>" |}.

Definition env_404 : Env := with_http_get get_404 env_fine.

(** A master playlist with one audio group of three renditions. *)
Definition audio_media (lang : string) (dflt : option string) (uri : option string)
    : Media :=
  {| m_type := Some "AUDIO"; m_group_id := Some "aud";
     m_language := Some lang; m_default := dflt; m_autoselect := None;
     m_uri := uri |}.

Definition master_audio : M3U8 :=
  {| pl_media := [ audio_media "en" (Some "YES") (Some "en.m3u8");
                   audio_media "ru" None (Some "ru.m3u8");
                   audio_media "ru" None None ];
     pl_playlists := [] |}.

(** * Properties *)

(** ** Sorting *)
Section PySortFacts.
Context {A K : Type}.
Variable leb : K -> K -> bool.
Variable key : A -> K.
Hypothesis leb_total : ∀ a b, leb a b = false → leb b a = true.
Hypothesis leb_trans : ∀ a b c, leb a b = true → leb b c = true → leb a c = true.

Let R (x y : A) : Prop := leb (key x) (key y) = true.

Lemma py_insert_perm x l : py_insert leb key x l ≡ₚ x :: l.
Proof using Type.
  induction l as [|y l IH]; simpl; [done|].
  destruct (leb (key x) (key y)); [done|].
  rewrite IH. apply perm_swap.
Qed.

Lemma py_sorted_perm l : py_sorted leb key l ≡ₚ l.
Proof using Type.
  induction l as [|x l IH]; simpl; [done|].
  by rewrite py_insert_perm, IH.
Qed.

Lemma py_sorted_length l : length (py_sorted leb key l) = length l.
Proof using Type. by rewrite py_sorted_perm. Qed.

Lemma py_insert_sorted x l :
  StronglySorted R l → StronglySorted R (py_insert leb key x l).
Proof using leb_total leb_trans.
  induction 1 as [|y l Hs IH Hy]; simpl.
  - repeat constructor.
  - destruct (leb (key x) (key y)) eqn:E.
    + constructor; [by constructor|].
      constructor; [exact E|].
      eapply Forall_impl; [exact Hy|].
      intros z Hz. unfold R in *. eauto.
    + constructor; [exact IH|].
      rewrite py_insert_perm. constructor; [|exact Hy].
      unfold R. auto.
Qed.

Lemma py_sorted_sorted l : StronglySorted R (py_sorted leb key l).
Proof using leb_total leb_trans.
  induction l; simpl; [constructor|by apply py_insert_sorted].
Qed.
End PySortFacts.





Lemma StronglySorted_weaken {A} (R S : A → A → Prop) l :
  (∀ x y, R x y → S x y) → StronglySorted R l → StronglySorted S l.
Proof.
  intros HRS. induction 1 as [|x l _ IH Hx]; constructor; [exact IH|].
  eapply Forall_impl; [exact Hx|]. auto.
Qed.

Section HlsFacts.
Variable urljoin : string -> string -> string.
Variable str_lower : string -> string.
Variable url : string.
Variable lang : option string.

Let variants := hls_variants_of urljoin str_lower url lang.


End HlsFacts.

(** ** Stepping through the monad *)

Lemma bind_inr {A B} (m : M A) (f : A → M B) s a s1 :
  m s = (inr a, s1) → bind m f s = f a s1.
Proof. unfold bind. by intros ->. Qed.

Lemma bind_inl {A B} (m : M A) (f : A → M B) s e s1 :
  m s = (inl e, s1) → bind m f s = (inl e, s1).
Proof. unfold bind. by intros ->. Qed.

Lemma bind_inv {A B} (m : M A) (f : A → M B) s b s2 :
  bind m f s = (inr b, s2) → ∃ a s1, m s = (inr a, s1) ∧ f a s1 = (inr b, s2).
Proof.
  unfold bind. destruct (m s) as [[e|a] s1]; [done|]. eauto.
Qed.


(** ** Selection among sorted variants *)


Lemma StronglySorted_last {A} (R : A → A → Prop) l x :
  (∀ a, R a a) → StronglySorted R l → last l = Some x → ∀ y, y ∈ l → R y x.
Proof.
  intros Hrefl Hs. revert x.
  induction Hs as [|a l Hs IH Ha]; intros x Hlast y Hy; [by inversion Hy|].
  destruct l as [|b l].
  - simpl in Hlast. apply list_elem_of_singleton in Hy. by simplify_eq.
  - change (last (a :: b :: l)) with (last (b :: l)) in Hlast.
    apply elem_of_cons in Hy as [->|Hy]; [|by eapply IH].
    rewrite Forall_forall in Ha. apply Ha.
    by apply last_Some_elem_of.
Qed.



Lemma qualifies_height v w h :
  v_res v = Some (w, h) → height_or_0 v = h.
Proof. unfold height_or_0, variant_key. by intros ->. Qed.





(** ** Looking up a representation by resolution *)




Lemma subscript0_not_ValueError {A} (o : option (list A)) msg :
  subscript0 o ≠ inl (ValueError msg).
Proof. by destruct o as [[|??]|]. Qed.



Lemma first_period_sets_not_ValueError mpd msg :
  first_period_sets mpd ≠ inl (ValueError msg).
Proof.
  destruct mpd as [[ps]|]; simpl; [|done].
  destruct ps as [[|p ?]|]; simpl; [done| |done].
  by destruct (pe_adaptation_sets p).
Qed.










(** ** Segment deduplication *)

Lemma list_index_app_r `{EqDecision A} (x : A) p l :
  x ∉ p → list_index x (p ++ l) = (λ i, length p + i)%nat <$> list_index x l.
Proof.
  induction p as [|y p IH]; simpl; intros Hx.
  - by destruct (list_index x l).
  - apply not_elem_of_cons in Hx as [Hne Hx].
    case_decide; [congruence|]. rewrite IH by done.
    by destruct (list_index x l).
Qed.

Lemma list_index_app_l `{EqDecision A} (x : A) p l :
  x ∈ p → ∃ j, (j < length p)%nat ∧ list_index x (p ++ l) = Some j.
Proof.
  induction p as [|y p IH]; simpl; intros Hx; [by inversion Hx|].
  case_decide as E.
  - exists 0%nat. split; [lia|done].
  - apply elem_of_cons in Hx as [->|Hx]; [done|].
    destruct (IH Hx) as (j & Hj & ->). exists (S j). split; [lia|done].
Qed.

Lemma first_occurrence_test (x : string) p l :
  bool_decide (list_index x (p ++ x :: l) = Some (length p + 0)%nat)
  = negb (bool_decide (x ∈ p)).
Proof.
  destruct (decide (x ∈ p)) as [Hin|Hout].
  - rewrite (bool_decide_eq_true_2 (x ∈ p)) by done. simpl.
    apply bool_decide_eq_false_2.
    destruct (list_index_app_l x p (x :: l) Hin) as (j & Hj & ->).
    intros [= ->]. lia.
  - rewrite (bool_decide_eq_false_2 (x ∈ p)) by done. simpl.
    apply bool_decide_eq_true_2.
    rewrite list_index_app_r by done. simpl. by rewrite decide_True.
Qed.

Lemma dedupe_from (p l seen : list string) :
  (∀ x, x ≠ "" → x ∈ seen ↔ x ∈ p) →
  omap id
    (imap (λ i seg,
             if negb (String.eqb seg "")
                && bool_decide (list_index seg (p ++ l) = Some (length p + i)%nat)
             then Some seg else None) l)
  = collapse_from seen (nonempty l).
Proof.
  revert p seen. induction l as [|x l IH]; intros p seen Hseen; [done|].
  rewrite imap_cons. unfold nonempty. rewrite filter_cons. fold (nonempty l).
  rewrite first_occurrence_test.
  assert (∀ i seg,
    ((λ i seg, if negb (String.eqb seg "")
                  && bool_decide (list_index seg (p ++ x :: l)
                                  = Some (length p + i)%nat)
               then Some seg else None) ∘ S) i seg
    = (if negb (String.eqb seg "")
          && bool_decide (list_index seg ((p ++ [x]) ++ l)
                          = Some (length (p ++ [x]) + i)%nat)
       then Some seg else None)) as Hext.
  { intros i seg. simpl. rewrite <- app_assoc. simpl.
    rewrite length_app. simpl.
    by replace (length p + 1 + i)%nat with (length p + S i)%nat by lia. }
  rewrite (imap_ext _ _ _ (λ i seg _, Hext i seg)).
  destruct (String.eqb_spec x "") as [->|Hne].
  - case_decide as Hd; [done|]. simpl.
    apply IH. intros y Hy. rewrite Hseen by done.
    rewrite elem_of_app, list_elem_of_singleton.
    split; [auto|]. by intros [?| ->].
  - case_decide as Hd; [|done]. simpl.
    rewrite <- (bool_decide_ext _ _ (Hseen x Hne)).
    destruct (bool_decide (x ∈ seen)) eqn:Hin; simpl.
    + apply IH. intros y Hy. rewrite Hseen by done.
      rewrite elem_of_app, list_elem_of_singleton.
      apply bool_decide_eq_true_1 in Hin. apply (Hseen x Hne) in Hin.
      split; [auto|]. by intros [?| ->].
    + f_equal. apply IH. intros y Hy.
      rewrite elem_of_cons, elem_of_app, list_elem_of_singleton, Hseen by done.
      tauto.
Qed.

(** [dedupe_segments] drops empty URIs and collapses the others to their
    first occurrence. *)
Lemma dedupe_segments_collapse l :
  dedupe_segments l = collapse_duplicates (nonempty l).
Proof.
  unfold dedupe_segments, collapse_duplicates.
  rewrite <- (dedupe_from [] l []); [done|]. done.
Qed.

(** ** The retry loop of [_fetch_segment] *)


(** One pass: a request, then either the body appended to the file or
    the exception. *)
Lemma fetch_once_spec env cfg segment_url file s :
  let url := segment_request_url env cfg segment_url in
  fetch_once env cfg segment_url file s =
  match attempt_outcome env (trace s) url with
  | inr bytes =>
      (inr tt,
       map_files (λ fs, <[file := default "" (fs !! file) +:+ bytes]> fs)
         (push (EvGet url) s))
  | inl e => (inl e, push (EvGet url) s)
  end.
Proof.
  unfold fetch_once, segment_request_url, attempt_outcome, get, write, set_files,
    bind, gets, emit, modify, lift. simpl.
  destruct (http_get env (trace s) _) as [e|resp]; simpl; [done|].
  by destruct (content resp).
Qed.



(** ** The requests of [_fetch_segments] *)

Lemma fetch_segment_first_try env cfg segment_url file s bytes :
  attempt_outcome env (trace s) (segment_request_url env cfg segment_url)
  = inr bytes →
  _fetch_segment env cfg segment_url file s =
  (inr tt,
   map_files (λ fs, <[file := default "" (fs !! file) +:+ bytes]> fs)
     (push (EvGet (segment_request_url env cfg segment_url)) s)).
Proof.
  intros H. unfold _fetch_segment. simpl. unfold try_except.
  rewrite fetch_once_spec. by rewrite H.
Qed.







(** ** Output Verifier *)




(** ** Media Assembler: exit codes *)

(** C3 at a failing invocation.  Every tool exits with 1 after writing
    part of its output.  The HLS muxer path raises with the diagnostics
    and deletes the partial file; [_merge_tracks] and [_decrypt_video]
    return normally and leave the partial file in place. *)
Theorem merge_and_decrypt_ignore_exit_code :
  let s := state0 dash (Some mpd_clear) in
  let muxed := _download_hls_via_ffmpeg env_failing cfg0
                 "https://kinescope.io/vid/720.m3u8" None "out.mp4.part" s in
  let merged := _merge_tracks env_failing cfg0
                  "temp/vid_video.mp4" "temp/vid_audio.mp4" "out.mp4.part" s in
  let decrypted := _decrypt_video env_failing cfg0
                     "temp/vid_video.mp4.enc" "temp/vid_video.mp4" "00ff" s in
  muxed.1 = inl (RuntimeError ("ffmpeg failed with code 1. Trace:" +:+ nl
                               +:+ "line 1" +:+ nl +:+ "line 2" +:+ nl))
  ∧ files muxed.2 !! "out.mp4.part" = None
  ∧ merged.1 = inr tt
  ∧ files merged.2 !! "out.mp4.part" = Some "partial"
  ∧ decrypted.1 = inr tt
  ∧ files decrypted.2 !! "temp/vid_video.mp4" = Some "partial".
Proof. split_and!; by vm_compute. Qed.

(** ** Counting the events of a computation *)

Lemma count_app f a b : count f (a ++ b) = (count f a + count f b)%nat.
Proof. unfold count. by rewrite filter_app, length_app. Qed.

Lemma count_one f ev : (count f [ev] ≤ 1)%nat.
Proof. unfold count. rewrite filter_cons. case_decide; simpl; lia. Qed.

Lemma count_false f ev : f ev = false → count f [ev] = 0%nat.
Proof.
  intros H. unfold count. rewrite filter_cons. case_decide; [congruence|done].
Qed.

Section Emits.
Context {A : Type}.
Variable f : event → bool.

Lemma emits_weaken a n (m : M A) :
  (a ≤ n)%nat → emits_at_most f a m → emits_at_most f n m.
Proof using Type.
  intros Hle H s. destruct (H s) as (evs & ? & ?). exists evs. split; [done|lia].
Qed.

Lemma emits_ret (a : A) n : emits_at_most f n (ret a).
Proof using Type. intros s. exists []. split; [done|]. unfold count. simpl. lia. Qed.

Lemma emits_raise e n : emits_at_most f n (raise e : M A).
Proof using Type. intros s. exists []. split; [done|]. unfold count. simpl. lia. Qed.

Lemma emits_lift (r : res A) n : emits_at_most f n (lift r).
Proof using Type. intros s. exists []. split; [done|]. unfold count. simpl. lia. Qed.

Lemma emits_gets (g : State → A) n : emits_at_most f n (gets g).
Proof using Type. intros s. exists []. split; [done|]. unfold count. simpl. lia. Qed.

Lemma emits_try_except a b n (m : M A) (h : exn → M A) :
  (a + b ≤ n)%nat →
  emits_at_most f a m → (∀ e, emits_at_most f b (h e)) →
  emits_at_most f n (try_except m h).
Proof using Type.
  intros Hle Hm Hh s. unfold try_except.
  destruct (Hm s) as (evs1 & Ht1 & Hc1).
  destruct (m s) as [[e|x] s1]; simpl in *.
  - destruct (Hh e s1) as (evs2 & Ht2 & Hc2).
    exists (evs2 ++ evs1). rewrite Ht2, Ht1, app_assoc, count_app. split; [done|lia].
  - exists evs1. split; [done|lia].
Qed.

Lemma emits_attempt n (m : M A) :
  emits_at_most f n m → emits_at_most f n (attempt m).
Proof using Type.
  intros Hm s. unfold attempt. destruct (Hm s) as (evs & Ht & Hc).
  destruct (m s) as [r s1]. by exists evs.
Qed.
End Emits.

Lemma emits_bind {A B} f a b n (m : M A) (k : A → M B) :
  (a + b ≤ n)%nat →
  emits_at_most f a m → (∀ x, emits_at_most f b (k x)) →
  emits_at_most f n (bind m k).
Proof.
  intros Hle Hm Hk s. unfold bind.
  destruct (Hm s) as (evs1 & Ht1 & Hc1).
  destruct (m s) as [[e|x] s1]; simpl in *.
  - exists evs1. split; [done|lia].
  - destruct (Hk x s1) as (evs2 & Ht2 & Hc2).
    exists (evs2 ++ evs1). rewrite Ht2, Ht1, app_assoc, count_app. split; [done|lia].
Qed.

Lemma emits_modify f (g : State → State) n :
  (∀ s, trace (g s) = trace s) → emits_at_most f n (modify g).
Proof.
  intros Hg s. exists []. simpl. rewrite Hg. split; [done|].
  unfold count. simpl. lia.
Qed.

Lemma emits_emit f ev n : (count f [ev] ≤ n)%nat → emits_at_most f n (emit ev).
Proof. intros H s. by exists [ev]. Qed.

Lemma emits_for_each {A} f (l : list A) (body : A → M unit) :
  (∀ x, emits_at_most f 0 (body x)) → emits_at_most f 0 (for_each l body).
Proof.
  intros Hb. induction l as [|x l IH]; simpl.
  - apply emits_ret.
  - apply (emits_bind f 0 0); [lia|apply Hb|]. by intros _.
Qed.

(** One step of a proof that a computation emits nothing that counts. *)
Ltac emits0_step :=
  match goal with
  | |- emits_at_most _ _ (bind _ _) => apply (emits_bind _ 0 0); [lia| |intros]
  | |- emits_at_most _ _ (ret _) => apply emits_ret
  | |- emits_at_most _ _ (raise _) => apply emits_raise
  | |- emits_at_most _ _ (lift _) => apply emits_lift
  | |- emits_at_most _ _ (gets _) => apply emits_gets
  | |- emits_at_most _ _ (attempt _) => apply emits_attempt
  | |- emits_at_most _ _ (try_except _ _) =>
      apply (emits_try_except _ 0 0); [lia| |intros]
  | |- emits_at_most _ _ (set_files _) => by apply emits_modify
  | |- emits_at_most _ _ (set_playlist _ _) => by apply emits_modify
  | |- emits_at_most _ _ (set_mpd_master _) => by apply emits_modify
  | |- emits_at_most _ _ (for_each _ _) => apply emits_for_each; intros
  | |- emits_at_most _ _ (match ?x with _ => _ end) => destruct x
  end.

Ltac emits0 := repeat emits0_step.

(** ** What each method adds to the trace *)
Section Counting.
Variable env : Env.
Variable cfg : Config.
Variable f : event → bool.
Variables w_mux w_tool w_post w_hls_failed w_dash_failed : nat.

Hypothesis f_get : ∀ u, f (EvGet u) = false.
Hypothesis f_run : ∀ a, f (EvRun a) = false.
Hypothesis f_status : ∀ l, status_line l → f (EvPrint l) = false.
Hypothesis f_post : ∀ u p, (count f [EvPost u p] ≤ w_post)%nat.
Hypothesis f_mux : ∀ v a t, (count f [EvPopen (hls_args cfg v a t)] ≤ w_mux)%nat.
Hypothesis f_merge :
  ∀ v a t, (count f [EvPopen (merge_args cfg v a t)] ≤ w_tool)%nat.
Hypothesis f_decrypt :
  ∀ v t k, (count f [EvPopen (decrypt_args cfg v t k)] ≤ w_tool)%nat.
Hypothesis f_hls_failed :
  ∀ e, (count f [EvPrint (hls_failed_line e)] ≤ w_hls_failed)%nat.
Hypothesis f_dash_failed :
  ∀ e, (count f [EvPrint (dash_failed_line e)] ≤ w_dash_failed)%nat.

Lemma emits_get url : emits_at_most f 0 (get env url).
Proof using f_get.
  unfold get. emits0. apply emits_emit. by rewrite count_false.
Qed.

Lemma emits_status l : status_line l → emits_at_most f 0 (print l).
Proof using f_status.
  intros Hl. apply emits_emit. rewrite count_false; [done|]. by apply f_status.
Qed.

Lemma emits_raise_for_status r : emits_at_most f 0 (raise_for_status r).
Proof using Type. unfold raise_for_status. emits0. Qed.

Lemma emits_run_process ev args target n :
  (count f [ev args] ≤ n)%nat →
  emits_at_most f n (run_process env ev args target).
Proof using Type.
  intros Hn. unfold run_process.
  apply (emits_bind f 0 n); [lia|apply emits_gets|intros h].
  apply (emits_bind f n 0); [lia|by apply emits_emit|intros _].
  emits0.
Qed.

Lemma emits_verify filepath require_audio :
  emits_at_most f 0 (_verify_output_or_raise env cfg filepath require_audio).
Proof using f_run f_status.
  unfold _verify_output_or_raise.
  destruct (_ffprobe_path env cfg) as [probe|].
  2:{ apply emits_status. constructor. }
  emits0_step.
  { apply emits_attempt. unfold run_checked. emits0_step.
    - apply emits_run_process. by rewrite count_false.
    - emits0. }
  destruct x as [e|proc].
  - apply emits_status. constructor.
  - unfold unlink. emits0.
Qed.

Lemma emits_load_hls_master : emits_at_most f 0 (_load_hls_master env).
Proof using f_get.
  unfold _load_hls_master. emits0_step; [emits0|].
  emits0_step; [apply emits_get|].
  emits0_step; [apply emits_raise_for_status|]. emits0.
Qed.

Lemma emits_fetch_mpd_master : emits_at_most f 0 (_fetch_mpd_master env).
Proof using f_get.
  unfold _fetch_mpd_master. emits0_step; [emits0|].
  emits0_step; [apply emits_get|]. emits0.
Qed.

Lemma emits_select resolution :
  emits_at_most f 0 (_select_hls_variant_urls env cfg resolution).
Proof using f_get.
  unfold _select_hls_variant_urls, get_hls_variants.
  emits0_step; [|emits0].
  emits0_step; [apply emits_load_hls_master|]. emits0.
Qed.

Lemma emits_dur url : emits_at_most f 0 (_dur env url).
Proof using f_get.
  unfold _dur. emits0_step; [apply emits_get|].
  emits0_step; [apply emits_raise_for_status|]. emits0.
Qed.

Lemma emits_read_progress lines : emits_at_most f 0 (read_progress env lines).
Proof using Type. unfold read_progress. emits0. Qed.

Lemma emits_download_hls v a t :
  emits_at_most f w_mux (_download_hls_via_ffmpeg env cfg v a t).
Proof using f_get f_mux.
  unfold _download_hls_via_ffmpeg.
  apply (emits_bind f 0 w_mux); [lia|apply emits_attempt, emits_dur|intros _].
  apply (emits_bind f 0 w_mux); [lia| |intros _].
  { destruct (truthy_str a); [|apply emits_ret].
    emits0_step; [apply emits_attempt, emits_dur|apply emits_ret]. }
  apply (emits_bind f w_mux 0); [lia|by apply emits_run_process|intros proc].
  emits0_step; [apply emits_read_progress|].
  unfold unlink. emits0.
Qed.

Lemma emits_hls_mux resolution tmp :
  emits_at_most f w_mux (hls_mux env cfg resolution tmp).
Proof using f_get f_mux.
  unfold hls_mux.
  apply (emits_bind f 0 w_mux); [lia|apply emits_select|intros urls].
  apply emits_download_hls.
Qed.

Lemma emits_merge_tracks v a t :
  emits_at_most f w_tool (_merge_tracks env cfg v a t).
Proof using f_merge.
  unfold _merge_tracks. apply (emits_try_except f w_tool 0); [lia| |].
  - apply (emits_bind f w_tool 0); [lia|by apply emits_run_process|intros _].
    apply emits_ret.
  - intros e. destruct e; apply emits_raise.
Qed.

Lemma emits_decrypt_video v t k :
  emits_at_most f w_tool (_decrypt_video env cfg v t k).
Proof using f_decrypt.
  unfold _decrypt_video. apply (emits_try_except f w_tool 0); [lia| |].
  - apply (emits_bind f w_tool 0); [lia|by apply emits_run_process|intros _].
    apply emits_ret.
  - intros e. destruct e; apply emits_raise.
Qed.

Lemma emits_get_license_key : emits_at_most f w_post (_get_license_key env cfg).
Proof using f_post.
  unfold _get_license_key.
  apply (emits_bind f 0 w_post); [lia|apply emits_gets|intros mpd].
  destruct mpd as [m|]; [|apply emits_ret].
  apply (emits_bind f 0 w_post); [lia|apply emits_lift|intros p].
  apply (emits_bind f 0 w_post); [lia|apply emits_lift|intros a].
  destruct (as_content_protections a) as [[|cp cps]|]; [apply emits_ret| |apply emits_ret].
  destruct (cp_cenc_default_kid cp) as [kid|]; [|apply emits_raise].
  apply (emits_bind f 0 w_post); [lia|apply emits_lift|intros payload].
  apply (emits_bind f w_post 0); [lia| |intros r; emits0].
  unfold post.
  apply (emits_bind f 0 w_post); [lia|apply emits_gets|intros h].
  apply (emits_bind f w_post 0); [lia|by apply emits_emit|intros _].
  apply emits_lift.
Qed.

Lemma emits_fetch_loop n segment_url file :
  emits_at_most f 0 (fetch_loop env cfg n segment_url file).
Proof using f_get.
  induction n as [|n IH]; simpl; [apply emits_raise|].
  apply (emits_try_except f 0 0); [lia| |].
  - unfold fetch_once. emits0_step; [apply emits_get|].
    emits0_step; [apply emits_lift|]. unfold write. emits0.
  - intros e. destruct e; try apply emits_raise. exact IH.
Qed.

Lemma emits_fetch_segments l filepath :
  emits_at_most f 0 (_fetch_segments env cfg l filepath).
Proof using f_get.
  unfold _fetch_segments, open_wb. emits0_step; [emits0|].
  apply emits_for_each. intros u. apply emits_fetch_loop.
Qed.

Lemma emits_rename a b : emits_at_most f 0 (rename a b).
Proof using Type. unfold rename. emits0. Qed.

Lemma emits_get_resolutions : emits_at_most f 0 (get_resolutions).
Proof using Type. unfold get_resolutions. emits0. Qed.

Lemma emits_pick_resolution resolution :
  emits_at_most f 0 (pick_resolution resolution).
Proof using Type.
  unfold pick_resolution. destruct resolution; [apply emits_ret|].
  emits0_step; [apply emits_get_resolutions|]. emits0.
Qed.

Lemma emits_hls_pipeline resolution tmp final :
  emits_at_most f w_mux (hls_pipeline env cfg resolution tmp final).
Proof using f_get f_run f_status f_mux.
  unfold hls_pipeline.
  apply (emits_bind f w_mux 0); [lia|apply emits_hls_mux|intros _].
  emits0_step; [apply emits_status; constructor|].
  emits0_step; [apply emits_verify|apply emits_rename].
Qed.

Lemma emits_fall_back_to_dash e :
  emits_at_most f w_hls_failed (fall_back_to_dash env cfg e).
Proof using f_get f_hls_failed.
  unfold fall_back_to_dash.
  apply (emits_bind f w_hls_failed 0); [lia|by apply emits_emit|intros _].
  emits0_step; [emits0|].
  emits0_step; [apply emits_fetch_mpd_master|emits0].
Qed.

Lemma emits_dash_assemble picked tmp :
  emits_at_most f (w_post + 3 * w_tool) (dash_assemble env cfg picked tmp).
Proof using f_get f_status f_post f_merge f_decrypt.
  unfold dash_assemble.
  apply (emits_bind f w_post (3 * w_tool)); [lia|apply emits_get_license_key|intros key].
  apply (emits_bind f 0 (3 * w_tool)); [lia|apply emits_gets|intros mpd].
  apply (emits_bind f 0 (3 * w_tool)); [lia|apply emits_lift|intros segments].
  apply (emits_bind f 0 (3 * w_tool)); [lia|apply emits_fetch_segments|intros _].
  apply (emits_bind f 0 (3 * w_tool)); [lia| |intros _].
  { case_match; [apply emits_fetch_segments|apply emits_ret]. }
  apply (emits_bind f (2 * w_tool) w_tool); [lia| |intros _].
  - destruct (truthy_str key); [|apply emits_ret].
    apply (emits_bind f 0 (2 * w_tool)); [lia|apply emits_status; constructor|intros _].
    apply (emits_bind f w_tool w_tool); [lia|apply emits_decrypt_video|intros _].
    apply (emits_bind f w_tool 0); [lia| |intros _; apply emits_status; constructor].
    case_match; [apply emits_decrypt_video|apply emits_ret].
  - case_match; [|eapply emits_weaken; [|apply emits_rename]; lia].
    apply (emits_bind f 0 w_tool); [lia|apply emits_status; constructor|intros _].
    apply (emits_bind f w_tool 0); [lia|apply emits_merge_tracks|intros _].
    apply emits_status; constructor.
Qed.

Lemma emits_dash_pipeline picked tmp final :
  emits_at_most f (w_post + 3 * w_tool) (dash_pipeline env cfg picked tmp final).
Proof using f_get f_run f_status f_post f_merge f_decrypt.
  unfold dash_pipeline.
  apply (emits_bind f (w_post + 3 * w_tool) 0); [lia|apply emits_dash_assemble|intros _].
  emits0_step; [apply emits_verify|].
  emits0_step; [apply emits_rename|apply emits_status; constructor].
Qed.

Lemma emits_try_hls e resolution tmp final :
  emits_at_most f (w_dash_failed + w_mux) (try_hls env cfg e resolution tmp final).
Proof using f_get f_run f_status f_mux f_dash_failed.
  unfold try_hls.
  apply (emits_bind f w_dash_failed w_mux); [lia|by apply emits_emit|intros _].
  apply (emits_bind f 0 w_mux); [lia|emits0|intros _].
  apply (emits_bind f w_mux 0); [lia|apply emits_hls_mux|intros _].
  emits0_step; [apply emits_verify|].
  emits0_step; [apply emits_rename|apply emits_status; constructor].
Qed.

Lemma emits_dash_stage resolution tmp final :
  emits_at_most f (w_post + 3 * w_tool + (w_dash_failed + w_mux))
    (dash_stage env cfg resolution tmp final).
Proof using f_get f_run f_status f_post f_mux f_merge f_decrypt f_dash_failed.
  unfold dash_stage.
  apply (emits_bind f 0 (w_post + 3 * w_tool + (w_dash_failed + w_mux)));
    [lia|apply emits_attempt, emits_pick_resolution|intros r].
  destruct r as [e|picked].
  - eapply emits_weaken; [|apply emits_try_hls]. lia.
  - apply (emits_try_except f (w_post + 3 * w_tool) (w_dash_failed + w_mux));
      [lia|apply emits_dash_pipeline|intros e; apply emits_try_hls].
Qed.

Lemma emits_download filepath resolution :
  emits_at_most f
    (w_mux + w_hls_failed + (w_post + 3 * w_tool + (w_dash_failed + w_mux)))
    (download env cfg filepath resolution).
Proof using f_get f_run f_status f_post f_mux f_merge f_decrypt f_hls_failed
  f_dash_failed.
  unfold download.
  apply (emits_bind f 0
           (w_mux + w_hls_failed + (w_post + 3 * w_tool + (w_dash_failed + w_mux))));
    [lia|apply emits_gets|intros t].
  apply (emits_bind f (w_mux + w_hls_failed)
           (w_post + 3 * w_tool + (w_dash_failed + w_mux))); [lia| |intros returned].
  - destruct t; [|apply emits_ret].
    apply (emits_try_except f w_mux w_hls_failed); [lia| |intros e].
    + apply (emits_bind f w_mux 0); [lia|apply emits_hls_pipeline|intros _].
      apply emits_ret.
    + apply (emits_bind f w_hls_failed 0); [lia|apply emits_fall_back_to_dash|intros _].
      apply emits_ret.
  - destruct returned; [apply emits_ret|apply emits_dash_stage].
Qed.
End Counting.

(** ** The fallback edges of [download] *)








Lemma download_dash_primary env cfg filepath resolution s :
  playlist_type s = dash →
  download env cfg filepath resolution s
  = dash_stage env cfg resolution (with_suffix_mp4 env filepath +:+ ".part")
      (with_suffix_mp4 env filepath) s.
Proof. intros Ht. unfold download, bind, gets, ret. simpl. by rewrite Ht. Qed.




(** ** Where a rejected output leads *)

Definition silent : event → bool := λ _, false.

Lemma count_silent evs : count silent evs = 0%nat.
Proof. unfold count. induction evs; [done|]. by rewrite filter_cons, decide_False. Qed.


(** The [except] clause of the second [try] prints its status line
    first. *)
Lemma try_hls_trace env cfg f e resolution tmp final s :
  (∀ u, f (EvGet u) = false) → (∀ a, f (EvRun a) = false) →
  (∀ l, status_line l → f (EvPrint l) = false) →
  ∃ evs, trace (try_hls env cfg e resolution tmp final s).2
         = evs ++ EvPrint (dash_failed_line e) :: trace s
       ∧ (count f evs ≤ 1)%nat
       ∧ ((∀ v a t, f (EvPopen (hls_args cfg v a t)) = false) → count f evs = 0%nat).
Proof.
  intros Hget Hrun Hstatus.
  assert (∀ w, (∀ v a t, (count f [EvPopen (hls_args cfg v a t)] ≤ w)%nat) →
    emits_at_most f w
      (set_playlist (hls_master_playlist_url cfg) hls ;;
       hls_mux env cfg resolution tmp ;;
       _verify_output_or_raise env cfg tmp true ;;
       rename tmp final ;;
       print "[*] Saved via HLS (fallback)")) as Hrest.
  { intros w Hw.
    apply (emits_bind f 0 w); [lia|by apply emits_modify|intros _].
    apply (emits_bind f w 0); [lia|by apply emits_hls_mux|intros _].
    apply (emits_bind f 0 0); [lia|by apply emits_verify|intros _].
    apply (emits_bind f 0 0); [lia|apply emits_rename|intros _].
    apply emits_status; [done|constructor]. }
  unfold try_hls. unfold bind at 1, print, emit, modify. cbn beta iota.
  destruct (Hrest 1%nat (λ _ _ _, count_one _ _) (push (EvPrint (dash_failed_line e)) s))
    as (evs & Ht & Hc).
  exists evs. split_and!; [exact Ht|exact Hc|].
  intros Hmux.
  destruct (Hrest 0%nat) with (s := push (EvPrint (dash_failed_line e)) s)
    as (evs' & Ht' & Hc').
  { intros. by rewrite count_false. }
  assert (evs' = evs) as ->; [|lia].
  apply (app_inv_tail (trace (push (EvPrint (dash_failed_line e)) s))). congruence.
Qed.





(** ** The final path is written last *)

Lemma append_length s t :
  String.length (s +:+ t) = (String.length s + String.length t)%nat.
Proof. induction s as [|a s IH]; simpl; [done|]. by rewrite IH. Qed.

Lemma part_suffix_differs final : final +:+ ".part" ≠ final.
Proof.
  intros H. apply (f_equal String.length) in H.
  rewrite append_length in H. simpl in H. lia.
Qed.

Section Keeps.
Context {A : Type}.
Variable path : string.

Lemma keeps_ret (a : A) : keeps path (ret a).
Proof using Type. done. Qed.

Lemma keeps_raise e : keeps path (raise e : M A).
Proof using Type. done. Qed.

Lemma keeps_lift (r : res A) : keeps path (lift r).
Proof using Type. done. Qed.

Lemma keeps_gets (g : State → A) : keeps path (gets g).
Proof using Type. done. Qed.

Lemma keeps_try_except (m : M A) (h : exn → M A) :
  keeps path m → (∀ e, keeps path (h e)) → keeps path (try_except m h).
Proof using Type.
  intros Hm Hh s. unfold try_except. specialize (Hm s).
  destruct (m s) as [[e|x] s1]; simpl in *; [|done]. by rewrite Hh.
Qed.

Lemma keeps_attempt (m : M A) : keeps path m → keeps path (attempt m).
Proof using Type.
  intros Hm s. unfold attempt. specialize (Hm s). by destruct (m s).
Qed.

Lemma keeps_then_on_failure (m : M A) : keeps path m → keeps_on_failure path m.
Proof using Type. intros Hm s e _. apply Hm. Qed.
End Keeps.

Lemma keeps_bind {A B} path (m : M A) (k : A → M B) :
  keeps path m → (∀ x, keeps path (k x)) → keeps path (bind m k).
Proof.
  intros Hm Hk s. unfold bind. specialize (Hm s).
  destruct (m s) as [[e|x] s1]; simpl in *; [done|]. by rewrite Hk.
Qed.

Lemma keeps_on_failure_bind {A B} path (m : M A) (k : A → M B) :
  keeps path m → (∀ x, keeps_on_failure path (k x)) →
  keeps_on_failure path (bind m k).
Proof.
  intros Hm Hk s e. unfold bind. specialize (Hm s).
  destruct (m s) as [[e'|x] s1]; simpl in *; [done|].
  intros H. by rewrite (Hk x s1 e H).
Qed.

Lemma keeps_modify path (g : State → State) :
  (∀ s, files (g s) !! path = files s !! path) → keeps path (modify g).
Proof. intros Hg s. apply Hg. Qed.

Lemma keeps_for_each {A} path (l : list A) (body : A → M unit) :
  (∀ x, keeps path (body x)) → keeps path (for_each l body).
Proof.
  intros Hb. induction l as [|x l IH]; simpl; [done|].
  apply keeps_bind; [apply Hb|by intros _].
Qed.

Ltac keeps_step :=
  match goal with
  | |- keeps _ (bind _ _) => apply keeps_bind; [|intros]
  | |- keeps _ (ret _) => apply keeps_ret
  | |- keeps _ (raise _) => apply keeps_raise
  | |- keeps _ (lift _) => apply keeps_lift
  | |- keeps _ (gets _) => apply keeps_gets
  | |- keeps _ (attempt _) => apply keeps_attempt
  | |- keeps _ (try_except _ _) => apply keeps_try_except; [|intros]
  | |- keeps _ (emit _) => by apply keeps_modify
  | |- keeps _ (print _) => by apply keeps_modify
  | |- keeps _ (set_playlist _ _) => by apply keeps_modify
  | |- keeps _ (set_mpd_master _) => by apply keeps_modify
  | |- keeps _ (for_each _ _) => apply keeps_for_each; intros
  | |- keeps _ (match ?x with _ => _ end) => destruct x
  end.

Ltac keeps_auto := repeat keeps_step.

Section KeepsMethods.
Variable env : Env.
Variable cfg : Config.
Variable path : string.

Lemma keeps_get url : keeps path (get env url).
Proof using Type. unfold get. keeps_auto. Qed.

Lemma keeps_unlink t : t ≠ path → keeps path (unlink t).
Proof using Type.
  intros Hne. apply keeps_modify. intros s. simpl. by apply lookup_delete_ne.
Qed.

Lemma keeps_run_process ev args t :
  t ≠ path → keeps path (run_process env ev args (Some t)).
Proof using Type.
  intros Hne. unfold run_process. keeps_auto.
  apply keeps_modify. intros st. simpl. by apply lookup_insert_ne.
Qed.

Lemma keeps_run_checked args : keeps path (run_checked env args).
Proof using Type. unfold run_checked, run_process. keeps_auto. Qed.

Lemma keeps_verify t require_audio :
  t ≠ path → keeps path (_verify_output_or_raise env cfg t require_audio).
Proof using Type.
  intros Hne. unfold _verify_output_or_raise.
  destruct (_ffprobe_path env cfg); [|keeps_auto].
  keeps_step; [apply keeps_attempt, keeps_run_checked|].
  destruct x; [keeps_auto|].
  keeps_step; [keeps_auto|].
  case_match; [|keeps_auto].
  keeps_step; [by apply keeps_unlink|keeps_auto].
Qed.

Lemma keeps_raise_for_status r : keeps path (raise_for_status r).
Proof using Type. unfold raise_for_status. keeps_auto. Qed.

Lemma keeps_select resolution :
  keeps path (_select_hls_variant_urls env cfg resolution).
Proof using Type.
  unfold _select_hls_variant_urls, get_hls_variants, _load_hls_master.
  keeps_step; [|keeps_auto].
  keeps_step; [|keeps_auto].
  keeps_step; [keeps_auto|].
  keeps_step; [apply keeps_get|].
  keeps_step; [apply keeps_raise_for_status|keeps_auto].
Qed.

Lemma keeps_dur url : keeps path (_dur env url).
Proof using Type.
  unfold _dur. keeps_step; [apply keeps_get|].
  keeps_step; [apply keeps_raise_for_status|keeps_auto].
Qed.

Lemma keeps_hls_mux resolution t :
  t ≠ path → keeps path (hls_mux env cfg resolution t).
Proof using Type.
  intros Hne. unfold hls_mux, _download_hls_via_ffmpeg.
  keeps_step; [apply keeps_select|].
  keeps_step; [apply keeps_attempt, keeps_dur|].
  keeps_step.
  { case_match; [|keeps_auto].
    keeps_step; [apply keeps_attempt, keeps_dur|keeps_auto]. }
  keeps_step; [by apply keeps_run_process|].
  keeps_step; [unfold read_progress; keeps_auto|].
  case_match; [keeps_auto|].
  keeps_step; [by apply keeps_unlink|keeps_auto].
Qed.

(** The last HLS attempt writes the final path only by its closing
    rename, after which nothing can raise. *)
Lemma try_hls_keeps_final_on_failure e resolution tmp :
  tmp ≠ path → keeps_on_failure path (try_hls env cfg e resolution tmp path).
Proof using Type.
  intros Hne. unfold try_hls.
  apply keeps_on_failure_bind; [keeps_auto|intros _].
  apply keeps_on_failure_bind; [keeps_auto|intros _].
  apply keeps_on_failure_bind; [by apply keeps_hls_mux|intros _].
  apply keeps_on_failure_bind; [by apply keeps_verify|intros _].
  intros s e'. unfold rename, bind, gets, raise, set_files, modify, print, emit.
  simpl. by destruct (files s !! tmp).
Qed.
End KeepsMethods.

(** ** A license request that fails *)

Lemma pick_resolution_state resolution s :
  (pick_resolution resolution s).2 = s.
Proof.
  unfold pick_resolution, get_resolutions, bind, gets, lift, ret, raise.
  destruct resolution; simpl; [done|].
  repeat case_match; by simplify_eq.
Qed.

Lemma get_license_key_raises env cfg s kid payload e :
  protected_with (mpd_master s) kid →
  license_payload env (remove_char "-" kid) = inr payload →
  http_post env (trace s) (clearkey_license_url cfg) payload = inl e →
  _get_license_key env cfg s
  = (inl e, push (EvPost (clearkey_license_url cfg) payload) s).
Proof.
  intros (m & p & ps & a & sets & cp & cps & Hm & Hp & Ha & Hcp & Hkid) Hpay Hpost.
  unfold _get_license_key, post, bind, gets, lift, emit, modify. simpl.
  rewrite Hm, Hp. simpl. rewrite Ha. simpl. rewrite Hcp, Hkid, Hpay. simpl.
  by rewrite Hpost.
Qed.

(** C2, as the code has it.  DASH is the active protocol, the manifest
    declares content protection and the license request raises.  Then
    [_get_license_key] raises that exception after its single POST; the
    [except] clause of the DASH stage catches it, prints the DASH failure
    line and runs the HLS attempt; no further license request is made;
    and if [download] ends with an exception, the final output path holds
    what it held before the call. *)
Theorem license_failure_falls_back (env : Env) (cfg : Config)
    (filepath : string) (resolution : option Resolution) (s : State)
    (picked : Resolution) (kid payload : string) (e : exn) :
  let final := with_suffix_mp4 env filepath in
  let tmp := final +:+ ".part" in
  let s1 := push (EvPost (clearkey_license_url cfg) payload) s in
  let r := download env cfg filepath resolution s in
  playlist_type s = dash →
  (pick_resolution resolution s).1 = inr picked →
  protected_with (mpd_master s) kid →
  license_payload env (remove_char "-" kid) = inr payload →
  http_post env (trace s) (clearkey_license_url cfg) payload = inl e →
  _get_license_key env cfg s = (inl e, s1)
  ∧ r = try_hls env cfg e (Some picked) tmp final s1
  ∧ (∃ evs, trace r.2
            = evs ++ EvPrint (dash_failed_line e)
                  :: EvPost (clearkey_license_url cfg) payload :: trace s
          ∧ count is_post evs = 0%nat)
  ∧ (∀ e', r.1 = inl e' → files r.2 !! final = files s !! final).
Proof.
  intros final tmp s1 r Ht Hpick Hprot Hpay Hpost.
  pose proof (get_license_key_raises env cfg s kid payload e Hprot Hpay Hpost) as Hkey.
  assert (r = try_hls env cfg e (Some picked) tmp final s1) as Heq.
  { subst r. rewrite (download_dash_primary _ _ _ _ _ Ht). fold final. fold tmp.
    unfold dash_stage, attempt, bind at 1.
    pose proof (pick_resolution_state resolution s) as Hst.
    destruct (pick_resolution resolution s) as [rp sp]. simpl in *. subst sp rp.
    unfold try_except, dash_pipeline, dash_assemble, bind. by rewrite Hkey. }
  split_and!; [exact Hkey|exact Heq| |].
  - rewrite Heq.
    destruct (try_hls_trace env cfg is_post e (Some picked) tmp final s1)
      as (evs & Htr & _ & H0); [done..|].
    exists evs. split; [exact Htr|]. by apply H0.
  - intros e' He'. rewrite Heq in He' |- *.
    rewrite (try_hls_keeps_final_on_failure env cfg final e (Some picked) tmp
               (part_suffix_differs final) s1 e' He').
    done.
Qed.

Lemma license_failure_falls_back_witness :
  let s := state0 dash (Some mpd_protected) in
  let r := download env_no_chance cfg0 "out.mp4" (Some res_720) s in
  playlist_type s = dash
  ∧ protected_with (mpd_master s) "0123-4567-89ab-cdef"
  ∧ http_post env_no_chance (trace s) (clearkey_license_url cfg0) "0123456789abcdef"
    = inl (OtherException "RetryError" "too many 500 error responses")
  ∧ (∃ evs, trace r.2
            = evs ++ EvPrint (dash_failed_line
                                (OtherException "RetryError"
                                   "too many 500 error responses"))
                  :: EvPost (clearkey_license_url cfg0) "0123456789abcdef"
                  :: trace s
          ∧ count is_post evs = 0%nat)
  ∧ r.1 = inl (ffmpeg_failed 1 ("muxer gave up" +:+ nl))
  ∧ files r.2 !! "out.mp4" = None.
Proof.
  intros s r.
  assert (protected_with (mpd_master s) "0123-4567-89ab-cdef") as Hprot.
  { do 7 eexists. split_and!; reflexivity. }
  destruct (license_failure_falls_back env_no_chance cfg0 "out.mp4" (Some res_720)
              s res_720 "0123-4567-89ab-cdef" "0123456789abcdef"
              (OtherException "RetryError" "too many 500 error responses")
              eq_refl eq_refl Hprot eq_refl eq_refl) as (_ & _ & Htr & Hfin).
  assert (r.1 = inl (ffmpeg_failed 1 ("muxer gave up" +:+ nl))) as Hr
    by by vm_compute.
  split_and!; [reflexivity|exact Hprot|reflexivity|exact Htr|exact Hr|].
  exact (Hfin _ Hr).
Defined.

(** C2, as stated, fails.  DASH is active, the manifest is protected and
    the license endpoint answers 500 to every request.  The exception is
    the session's, not a [LicenseError]; [download] takes the edge to
    HLS, and with a working muxer it returns normally with the file at
    the final path. *)
Lemma license_failure_triggers_fallback :
  let s := state0 dash (Some mpd_protected) in
  let r := download env_license_down cfg0 "out.mp4" (Some res_720) s in
  (_get_license_key env_license_down cfg0 s).1
  = inl (OtherException "RetryError" "too many 500 error responses")
  ∧ r.1 = inr tt
  ∧ count is_post (trace r.2) = 1%nat
  ∧ count is_dash_failed (trace r.2) = 1%nat
  ∧ count is_mux (trace r.2) = 1%nat
  ∧ head (trace r.2) = Some (EvPrint "[*] Saved via HLS (fallback)")
  ∧ files r.2 !! "out.mp4" = Some "mp4".
Proof. split_and!; by vm_compute. Qed.

(** ** What a normal return of [download] implies *)












(** * Further properties *)

(** ** Protocol Detector *)

Lemma prefix_occurs a b : String.prefix a b = true ↔ ∃ rest, b = a +:+ rest.
Proof.
  revert b. induction a as [|c a IH]; intros [|d b]; simpl.
  - split; [by exists ""|done].
  - split; [by eexists|done].
  - split; [done|by intros [? ?]].
  - destruct (Ascii.ascii_dec c d) as [->|Hne].
    + rewrite IH. split; intros [rest H]; exists rest.
      * simpl. by rewrite H.
      * simpl in H. by injection H.
    + split; [done|]. intros [rest H]. simpl in H. injection H as Hd _.
      by subst.
Qed.

Lemma contains_occurs needle hay :
  contains needle hay = true ↔ occurs_in needle hay.
Proof.
  unfold occurs_in. induction hay as [|c hay IH].
  - cbn [contains]. rewrite orb_false_r, prefix_occurs. split.
    + intros [rest H]. by exists "", rest.
    + intros (before & after & H). destruct before; [by exists after|done].
  - cbn [contains]. rewrite orb_true_iff, prefix_occurs, IH. split.
    + intros [[rest H]|(before & after & H)].
      * by exists "", rest.
      * exists (String c before), after. simpl. by rewrite H.
    + intros (before & after & H). destruct before as [|d before].
      * left. by exists after.
      * right. exists before, after. simpl in H. by injection H.
Qed.

(** X1.  Detection asks for the HLS master playlist first and for the
    DASH manifest only when the HLS answer does not qualify; it makes at
    most these two requests.  It answers HLS exactly when the first
    response has status 200 and carries the [#EXTM3U] marker in its body
    or the HLS mime type in its content type, and then the DASH manifest
    is not requested; it answers DASH only for a second response with
    status 200 and [<MPD] in its body. *)
Theorem detect_master_spec (env : Env) (cfg : Config)
    (content_type_of : list event → string → string) (s : State) :
  let hls_url := hls_master_playlist_url cfg in
  let dash_url := mpd_master_playlist_url cfg in
  let r := _detect_master env cfg content_type_of s in
  let hls_ok :=
    ∃ resp, http_get env (trace s) hls_url = inr resp
      ∧ status_code resp = 200
      ∧ (occurs_in "#EXTM3U" (text resp)
         ∨ occurs_in "application/vnd.apple.mpegurl"
             (content_type_of (trace s) hls_url)) in
  (trace r.2 = EvGet hls_url :: trace s
   ∨ trace r.2 = EvGet dash_url :: EvGet hls_url :: trace s)
  ∧ (hls_ok ↔ r.1 = inr (hls_url, hls))
  ∧ (hls_ok → trace r.2 = EvGet hls_url :: trace s)
  ∧ (∀ u, r.1 = inr (u, dash) →
       u = dash_url
       ∧ ∃ resp, http_get env (EvGet hls_url :: trace s) dash_url = inr resp
           ∧ status_code resp = 200 ∧ occurs_in "<MPD" (text resp))
  ∧ (∀ m, r.1 = inl (VideoNotFound m) →
       trace r.2 = EvGet dash_url :: EvGet hls_url :: trace s
       ∨ (∃ e, http_get env (trace s) hls_url = inl e)).
Proof.
  intros hls_url dash_url r hls_ok.
  set (accept1 := match http_get env (trace s) hls_url with
                  | inr resp =>
                      (status_code resp =? 200)
                      && (contains "#EXTM3U" (text resp)
                          || contains "application/vnd.apple.mpegurl"
                               (content_type_of (trace s) hls_url))
                  | inl _ => false
                  end).
  assert (hls_ok ↔ accept1 = true) as Hok.
  { subst hls_ok accept1.
    destruct (http_get env (trace s) hls_url) as [e|resp].
    - split; [by intros (? & ? & _)|done].
    - rewrite andb_true_iff, orb_true_iff, Z.eqb_eq, !contains_occurs. split.
      + by intros (resp0 & [= <-] & ? & ?).
      + intros [? ?]. by exists resp. }
  revert Hok. generalize hls_ok. intros P Hok. subst r accept1.
  unfold _detect_master, get, bind, gets, emit, modify, lift, ret, raise.
  fold hls_url dash_url. simpl.
  destruct (http_get env (trace s) hls_url) as [e|resp] eqn:E1; simpl.
  { split_and!; [by left| |by rewrite Hok|done|eauto].
    by rewrite Hok. }
  destruct ((status_code resp =? 200)
            && (contains "#EXTM3U" (text resp)
                || contains "application/vnd.apple.mpegurl"
                     (content_type_of (trace s) hls_url))) eqn:Eh; simpl.
  { split_and!; [by left|by rewrite Hok|done|done|done]. }
  destruct (http_get env (EvGet hls_url :: trace s) dash_url)
    as [e|resp2] eqn:E2; simpl.
  { split_and!; [by right|by rewrite Hok|by rewrite Hok|done|by left]. }
  destruct ((status_code resp2 =? 200) && contains "<MPD" (text resp2)) eqn:Ed;
    simpl.
  - apply andb_true_iff in Ed as [Hs Hc]. apply Z.eqb_eq in Hs.
    apply contains_occurs in Hc.
    split_and!; [by right| |by rewrite Hok| |done].
    + rewrite Hok. split; [done|]. by intros [= ? ?].
    + intros u [= <-]. split; [done|]. by exists resp2.
  - split_and!; [by right|by rewrite Hok|by rewrite Hok|done|by left].
Qed.

(** ** Output Verifier: a prober that does not deliver *)

(** X2.  When the prober is found but cannot be started or exits with a
    nonzero status, verification is skipped: a warning is printed, the
    call returns normally and the file stays as it is, whatever it
    contains. *)
Theorem verify_skipped_when_probe_fails (env : Env) (cfg : Config)
    (probe filepath : string) (require_audio : bool) (s : State) :
  _ffprobe_path env cfg = Some probe →
  (match spawn env (trace s) (probe_args probe filepath) with
   | inl _ => True
   | inr proc => returncode proc ≠ 0
   end) →
  ∃ e, _verify_output_or_raise env cfg filepath require_audio s
       = (inr tt,
          push (EvPrint ("[*] Warning: ffprobe failed: " +:+ exn_str e
                         +:+ ". Skipping validation."))
            (push (EvRun (probe_args probe filepath)) s)).
Proof.
  intros Hp Hfail. unfold _verify_output_or_raise. rewrite Hp.
  unfold attempt, run_checked, run_process, bind, gets, emit, modify, lift,
    ret, raise, print. simpl.
  destruct (spawn env (trace s) (probe_args probe filepath)) as [e|proc]; simpl.
  - by exists e.
  - apply Z.eqb_neq in Hfail. rewrite Hfail. by eexists.
Qed.

Lemma verify_skipped_when_probe_fails_witness :
  let s := with_file "out.mp4.part" "garbage" (state0 hls None) in
  let r := _verify_output_or_raise env_probe_exits_1 cfg0 "out.mp4.part" true s in
  _ffprobe_path env_probe_exits_1 cfg0 = Some "/usr/bin/ffprobe"
  ∧ r.1 = inr tt
  ∧ files r.2 !! "out.mp4.part" = Some "garbage".
Proof.
  intros s r.
  destruct (verify_skipped_when_probe_fails env_probe_exits_1 cfg0
              "/usr/bin/ffprobe" "out.mp4.part" true s eq_refl) as [e He].
  { by vm_compute. }
  split_and!; [reflexivity|subst r; by rewrite He|subst r; by rewrite He].
Defined.

(** X3.  When the prober exits with 0 but its output does not parse, the
    parser's exception leaves [_verify_output_or_raise] and the file is
    not deleted. *)
Theorem verify_raises_on_unparsable_report (env : Env) (cfg : Config)
    (probe filepath : string) (require_audio : bool) (s : State)
    (proc : Completed) (e : exn) :
  _ffprobe_path env cfg = Some probe →
  spawn env (trace s) (probe_args probe filepath) = inr proc →
  returncode proc = 0 →
  json_loads env (probe_stdout proc) = inl e →
  _verify_output_or_raise env cfg filepath require_audio s
  = (inl e, push (EvRun (probe_args probe filepath)) s).
Proof.
  intros Hp Hspawn Hrc Hjson. unfold _verify_output_or_raise. rewrite Hp.
  unfold attempt, run_checked, run_process, bind, gets, emit, modify, lift,
    ret, raise. simpl.
  rewrite Hspawn. simpl. rewrite Hrc. simpl. by rewrite Hjson.
Qed.

Lemma verify_raises_on_unparsable_report_witness :
  let s := with_file "out.mp4.part" "mp4" (state0 hls None) in
  let r := _verify_output_or_raise env_probe_garbage cfg0 "out.mp4.part" true s in
  _ffprobe_path env_probe_garbage cfg0 = Some "/usr/bin/ffprobe"
  ∧ r.1 = inl (OtherException "JSONDecodeError" "Expecting value")
  ∧ files r.2 !! "out.mp4.part" = Some "mp4".
Proof.
  intros s r. subst r.
  rewrite (verify_raises_on_unparsable_report env_probe_garbage cfg0
             "/usr/bin/ffprobe" "out.mp4.part" true s
             (finished 0 ["not json"] [] None)
             (OtherException "JSONDecodeError" "Expecting value")
             eq_refl eq_refl eq_refl eq_refl).
  split_and!; reflexivity.
Defined.

(** X4.  A report whose duration is missing, empty or not a number counts
    as duration 0: the file is rejected whatever streams it has and
    whether or not audio is required. *)
Theorem unreadable_duration_rejected (env : Env) (meta : ProbeMeta)
    (require_audio : bool) :
  duration_unreadable env meta →
  duration_of env meta = 0%Q ∧ rejected env meta require_audio = true.
Proof.
  intros Hd.
  assert (duration_of env meta = 0%Q) as H0.
  { unfold duration_of. destruct Hd as [->|(d & -> & [->|Hf])]; [done..|].
    destruct (String.eqb d ""); [done|]. by rewrite Hf. }
  split; [exact H0|]. unfold rejected. rewrite H0.
  by destruct (has_stream "video" meta).
Qed.

Lemma unreadable_duration_rejected_witness :
  duration_unreadable env_fine
    {| streams := [Some "video"; Some "audio"]; format_duration := Some "N/A" |}
  ∧ rejected env_fine
      {| streams := [Some "video"; Some "audio"]; format_duration := Some "N/A" |}
      false = true.
Proof.
  assert (duration_unreadable env_fine
            {| streams := [Some "video"; Some "audio"];
               format_duration := Some "N/A" |}) as Hd.
  { right. exists "N/A". split; [done|]. by right. }
  split; [exact Hd|].
  exact (proj2 (unreadable_duration_rejected env_fine _ false Hd)).
Defined.

(** X5.  [_ffprobe_path] returns the first candidate that exists, the
    two beside ffmpeg before the two found on the search path: a result
    exists and is a candidate, an existing [ffprobe] beside ffmpeg is the
    result, and there is no result exactly when no candidate exists. *)
Theorem ffprobe_path_spec (env : Env) (cfg : Config) :
  (∀ p, _ffprobe_path env cfg = Some p →
     path_exists env p = true ∧ p ∈ ffprobe_candidates env cfg)
  ∧ (path_exists env (sibling env (ffmpeg_path cfg) "ffprobe") = true →
       _ffprobe_path env cfg = Some (sibling env (ffmpeg_path cfg) "ffprobe"))
  ∧ (_ffprobe_path env cfg = None
     ↔ ∀ c, c ∈ ffprobe_candidates env cfg → path_exists env c = false).
Proof.
  unfold _ffprobe_path. fold (ffprobe_candidates env cfg). split_and!.
  - intros p Hp. apply head_Some_elem_of in Hp.
    by apply list_elem_of_filter in Hp.
  - intros He. unfold ffprobe_candidates. simpl.
    rewrite filter_cons. by rewrite decide_True.
  - rewrite head_None. split.
    + intros Hnil c Hc. destruct (path_exists env c) eqn:E; [|done].
      assert (c ∈ filter (λ c, path_exists env c = true)
                    (ffprobe_candidates env cfg)) as Hin
        by by apply list_elem_of_filter.
      rewrite Hnil in Hin. by inversion Hin.
    + intros Hall.
      destruct (filter _ (ffprobe_candidates env cfg)) as [|c l] eqn:E; [done|].
      assert (c ∈ filter (λ c, path_exists env c = true)
                    (ffprobe_candidates env cfg)) as Hin
        by (rewrite E; left).
      apply list_elem_of_filter in Hin as [Hex Hc].
      rewrite (Hall c Hc) in Hex. done.
Qed.

(** ** License Client *)

Lemma remove_char_absent c s : c ∉ chars (remove_char c s).
Proof.
  induction s as [|a s IH]; simpl; [by inversion 1|].
  destruct (Ascii.eqb_spec a c) as [->|Hne]; [done|].
  simpl. apply not_elem_of_cons. split; [congruence|done].
Qed.

(** X6.  Without a manifest, or when the first adaptation set of the
    manifest declares no content protection, [_get_license_key] returns
    no key and makes no request. *)
Theorem no_license_without_protection (env : Env) (cfg : Config) (s : State) :
  unprotected (mpd_master s) →
  _get_license_key env cfg s = (inr None, s).
Proof.
  unfold _get_license_key, bind, gets, lift, ret. simpl.
  intros [->|(m & p & ps & a & sets & -> & Hp & Ha & Hcp)]; [done|].
  rewrite Hp. simpl. rewrite Ha. simpl. by destruct Hcp as [->| ->].
Qed.

Lemma no_license_without_protection_witness :
  unprotected (mpd_master (state0 dash (Some mpd_clear)))
  ∧ _get_license_key env_fine cfg0 (state0 dash (Some mpd_clear))
    = (inr None, state0 dash (Some mpd_clear)).
Proof.
  assert (unprotected (mpd_master (state0 dash (Some mpd_clear)))) as Hu.
  { right. do 5 eexists. split_and!; [reflexivity..|]. by left. }
  split; [exact Hu|]. exact (no_license_without_protection _ _ _ Hu).
Defined.

(** X7.  For a protected manifest whose license request is answered,
    [_get_license_key] sends one POST to the license URL whose key id has
    neither hyphens nor base64 padding, and returns the hex form of the
    returned key material padded with [==]. *)
Theorem license_key_obtained (env : Env) (cfg : Config) (s : State)
    (kid b64 k key : string) (resp : Response) :
  let payload := remove_char "="%char b64 in
  protected_with (mpd_master s) kid →
  b64_of_hex env (remove_char "-"%char kid) = inr b64 →
  http_post env (trace s) (clearkey_license_url cfg) payload = inr resp →
  json_first_key env (text resp) = inr k →
  hex_of_b64 env (k +:+ "==") = inr key →
  _get_license_key env cfg s
  = (inr (Some key), push (EvPost (clearkey_license_url cfg) payload) s)
  ∧ ("-"%char ∉ chars (remove_char "-"%char kid))
  ∧ ("="%char ∉ chars payload).
Proof.
  intros payload (m & p & ps & a & sets & cp & cps & Hm & Hp & Ha & Hcp & Hkid)
    Hb64 Hpost Hk Hkey.
  split_and!; [|apply remove_char_absent..].
  unfold _get_license_key, license_payload, post, bind, gets, lift, emit, modify,
    ret. simpl.
  rewrite Hm, Hp. simpl. rewrite Ha. simpl. rewrite Hcp, Hkid, Hb64. simpl.
  fold payload. rewrite Hpost. simpl. rewrite Hk. simpl. by rewrite Hkey.
Qed.

Lemma license_key_obtained_witness :
  let s := state0 dash (Some mpd_protected) in
  protected_with (mpd_master s) "0123-4567-89ab-cdef"
  ∧ _get_license_key env_license_up cfg0 s
    = (inr (Some "a2V5=="),
       push (EvPost (clearkey_license_url cfg0) "0123456789abcdef") s).
Proof.
  intros s.
  assert (protected_with (mpd_master s) "0123-4567-89ab-cdef") as Hprot.
  { do 7 eexists. split_and!; reflexivity. }
  split; [exact Hprot|].
  exact (proj1 (license_key_obtained env_license_up cfg0 s
                  "0123-4567-89ab-cdef" "0123456789abcdef" "a2V5" "a2V5=="
                  (ok_response "a2V5") Hprot eq_refl eq_refl eq_refl eq_refl)).
Defined.

(** ** How often [download] reaches outside *)

Lemma status_line_not_post l : status_line l → is_post (EvPrint l) = false.
Proof. done. Qed.

Lemma status_line_not_tool l : status_line l → is_tool (EvPrint l) = false.
Proof. done. Qed.

(** X8.  One call of [download] makes at most one license request and
    runs the decryptor and the merger at most three times together. *)
Theorem download_requests_bounded (env : Env) (cfg : Config) (filepath : string)
    (resolution : option Resolution) (s : State) :
  ∃ evs, trace (download env cfg filepath resolution s).2 = evs ++ trace s
    ∧ (count is_post evs ≤ 1)%nat
    ∧ (count is_tool evs ≤ 3)%nat.
Proof.
  destruct (emits_download env cfg is_post 0 0 1 0 0) with
    (filepath := filepath) (resolution := resolution) (s := s)
    as (evs & Ht & Hc); try done; try (intros; apply count_one).
  destruct (emits_download env cfg is_tool 0 1 0 0 0) with
    (filepath := filepath) (resolution := resolution) (s := s)
    as (evs2 & Ht2 & Hc2); try done; try (intros; apply count_one).
  assert (evs2 = evs) as -> by (apply (app_inv_tail (trace s)); congruence).
  exists evs. split_and!; [done|lia|lia].
Qed.

(** ** Media Assembler: the HLS muxer *)

Lemma attempt_dur_state env url s :
  ∃ r, attempt (_dur env url) s = (inr r, push (EvGet url) s).
Proof.
  unfold attempt, _dur, get, raise_for_status, bind, gets, emit, modify, lift,
    ret, raise. simpl.
  destruct (http_get env (trace s) url) as [e|resp]; simpl; [by eexists|].
  destruct ((400 <=? status_code resp) && (status_code resp <? 600)); simpl;
    [by eexists|].
  destruct (m3u8_loads env (text resp)); by eexists.
Qed.



(** The state in which the muxer is started. *)
Lemma hls_before_mux env v a s :
  ∃ s1, (∀ B (body : M B),
           (_ <- attempt (_dur env v) ;;
            (if truthy_str a
             then _ <- attempt (_dur env (default "" a)) ;; ret tt
             else ret tt) ;;
            body) s = body s1)
        ∧ trace s1 = trace_at_mux v a s
        ∧ files s1 = files s.
Proof.
  destruct (attempt_dur_state env v s) as [r1 H1].
  unfold trace_at_mux. destruct (truthy_str a) eqn:Ha.
  - destruct (attempt_dur_state env (default "" a) (push (EvGet v) s)) as [r2 H2].
    exists (push (EvGet (default "" a)) (push (EvGet v) s)).
    split_and!; [|done..]. intros B body.
    unfold bind at 1. rewrite H1. unfold bind at 1. unfold bind at 1.
    rewrite H2. done.
  - exists (push (EvGet v) s). split_and!; [|done..]. intros B body.
    unfold bind at 1. rewrite H1. done.
Qed.






(** ** Media Assembler: a tool that cannot be started *)

(** X11.  When the merger cannot be started because its binary is
    missing, [_merge_tracks] raises [FFmpegNotFoundError]; the decryptor
    likewise gives [Mp4DecryptNotFoundError]; any other failure to start
    leaves them unchanged.  [_download_hls_via_ffmpeg] does not translate:
    a missing muxer leaves it as the [FileNotFoundError] of the start. *)
Theorem tool_start_failures (env : Env) (cfg : Config) (s : State) (e : exn) :
  (∀ v a t,
     spawn env (trace s) (merge_args cfg v a t) = inl e →
     _merge_tracks env cfg v a t s
     = (inl match e with
            | FileNotFoundError _ =>
                FFmpegNotFoundError "FFmpeg binary was not found at the specified path"
            | _ => e
            end,
        push (EvPopen (merge_args cfg v a t)) s))
  ∧ (∀ v t k,
       spawn env (trace s) (decrypt_args cfg v t k) = inl e →
       _decrypt_video env cfg v t k s
       = (inl match e with
              | FileNotFoundError _ =>
                  Mp4DecryptNotFoundError
                    "mp4decrypt binary was not found at the specified path"
              | _ => e
              end,
          push (EvPopen (decrypt_args cfg v t k)) s))
  ∧ (∀ v a t,
       spawn env (trace_at_mux v a s) (hls_args cfg v a t) = inl e →
       (_download_hls_via_ffmpeg env cfg v a t s).1 = inl e
       ∧ files (_download_hls_via_ffmpeg env cfg v a t s).2 = files s).
Proof.
  split_and!.
  - intros v a t H. unfold _merge_tracks, try_except, run_process, bind, gets,
      emit, modify, lift, raise. simpl. rewrite H. by destruct e.
  - intros v t k H. unfold _decrypt_video, try_except, run_process, bind, gets,
      emit, modify, lift, raise. simpl. rewrite H. by destruct e.
  - intros v a t H.
    destruct (hls_before_mux env v a s) as (s1 & Hk & Ht & Hf).
    unfold _download_hls_via_ffmpeg. rewrite Hk.
    unfold run_process, bind, gets, emit, modify, lift. simpl.
    rewrite Ht, H. simpl. done.
Qed.

Lemma tool_start_failures_witness :
  let s := state0 dash (Some mpd_clear) in
  (_merge_tracks env_tools_missing cfg0 "temp/vid_video.mp4" "temp/vid_audio.mp4"
     "out.mp4.part" s).1
  = inl (FFmpegNotFoundError "FFmpeg binary was not found at the specified path")
  ∧ (_download_hls_via_ffmpeg env_tools_missing cfg0
       "https://kinescope.io/vid/720.m3u8" None "out.mp4.part" s).1
    = inl (FileNotFoundError "[Errno 2] No such file or directory").
Proof.
  intros s.
  destruct (tool_start_failures env_tools_missing cfg0 s
              (FileNotFoundError "[Errno 2] No such file or directory"))
    as (Hm & _ & Hh).
  split.
  - by rewrite (Hm "temp/vid_video.mp4" "temp/vid_audio.mp4" "out.mp4.part" eq_refl).
  - exact (proj1 (Hh "https://kinescope.io/vid/720.m3u8" None "out.mp4.part"
                    eq_refl)).
Defined.

(** ** Segment Retriever: what ends up in the file *)

Lemma append_assoc_string (a b c : string) : (a +:+ b) +:+ c = a +:+ (b +:+ c).
Proof.
  induction a as [|x a IH]; [done|].
  change (String x ((a +:+ b) +:+ c) = String x (a +:+ (b +:+ c))).
  by rewrite IH.
Qed.

Lemma append_empty_r (a : string) : a +:+ "" = a.
Proof.
  induction a as [|x a IH]; [done|].
  change (String x (a +:+ "") = String x a). by rewrite IH.
Qed.

Lemma fetch_all_content env cfg file body l s acc :
  (∀ h u, u ∈ l →
     attempt_outcome env h (segment_request_url env cfg u) = inr (body u)) →
  files s !! file = Some acc →
  let r := for_each l (λ u, _fetch_segment env cfg u file) s in
  r.1 = inr tt
  ∧ files r.2 !! file = Some (acc +:+ concat_bodies body l)
  ∧ trace r.2 = rev (map (λ u, EvGet (segment_request_url env cfg u)) l) ++ trace s.
Proof.
  revert s acc. induction l as [|u l IH]; intros s acc Hok Hacc.
  - simpl. by rewrite append_empty_r.
  - cbn [for_each]. unfold bind.
    rewrite (fetch_segment_first_try env cfg u file s (body u)) by (apply Hok; left).
    destruct (IH (map_files (λ fs, <[file := default "" (fs !! file) +:+ body u]> fs)
                    (push (EvGet (segment_request_url env cfg u)) s))
                (acc +:+ body u)) as (H1 & H2 & H3).
    + intros h x Hx. apply Hok. by right.
    + simpl. rewrite lookup_insert_eq, Hacc. done.
    + split_and!; [done| |].
      * cbn zeta in H2. rewrite H2. simpl. by rewrite append_assoc_string.
      * cbn zeta in H3. rewrite H3. simpl. by rewrite <- app_assoc.
Qed.

(** X12.  When every segment request is answered, [_fetch_segments]
    returns normally and the file holds the bodies of the distinct
    non-empty segments in the order of their first occurrence, one after
    the other; whatever the file held before is gone. *)
Theorem fetch_segments_file_content (env : Env) (cfg : Config)
    (body : string → string) (l : list string) (filepath : string) (s : State) :
  (∀ h u, attempt_outcome env h (segment_request_url env cfg u) = inr (body u)) →
  let r := _fetch_segments env cfg l filepath s in
  r.1 = inr tt
  ∧ files r.2 !! filepath
    = Some (concat_bodies body (collapse_duplicates (nonempty l))).
Proof.
  intros Hok r. subst r. unfold _fetch_segments, bind, open_wb, set_files, modify.
  rewrite <- dedupe_segments_collapse.
  destruct (fetch_all_content env cfg filepath body (dedupe_segments l)
              (map_files (λ fs, <[filepath := ""]> fs) s) "")
    as (H1 & H2 & _).
  - intros h u _. apply Hok.
  - simpl. apply lookup_insert_eq.
  - split; [exact H1|]. cbn zeta in H2. rewrite H2. done.
Qed.

Lemma fetch_segments_file_content_witness :
  let s := with_file "temp/vid_video.mp4" "stale" (state0 dash None) in
  let r := _fetch_segments env_fine cfg0 ["a.m4s"; "b.m4s"; "a.m4s"]
             "temp/vid_video.mp4" s in
  (∀ h u, attempt_outcome env_fine h (segment_request_url env_fine cfg0 u)
          = inr (segment_request_url env_fine cfg0 u))
  ∧ files r.2 !! "temp/vid_video.mp4"
    = Some ("https://kinescope.io/vid/a.m4s" +:+ "https://kinescope.io/vid/b.m4s").
Proof.
  intros s r.
  assert (∀ h u, attempt_outcome env_fine h (segment_request_url env_fine cfg0 u)
                 = inr (segment_request_url env_fine cfg0 u)) as Hok by done.
  split; [exact Hok|].
  destruct (fetch_segments_file_content env_fine cfg0
              (segment_request_url env_fine cfg0) ["a.m4s"; "b.m4s"; "a.m4s"]
              "temp/vid_video.mp4" s Hok) as [_ Hc].
  subst r. rewrite Hc. reflexivity.
Defined.

Lemma fetch_segment_fails_first_try env cfg segment_url file s e :
  attempt_outcome env (trace s) (segment_request_url env cfg segment_url) = inl e →
  ¬ is_chunked (inl e) →
  _fetch_segment env cfg segment_url file s
  = (inl e, push (EvGet (segment_request_url env cfg segment_url)) s).
Proof.
  intros H Hn. unfold _fetch_segment. simpl. unfold try_except.
  rewrite fetch_once_spec, H.
  destruct e; try done. exfalso. apply Hn. by eexists.
Qed.

(** X13.  When a segment request fails with anything but a chunked
    transfer error, [_fetch_segments] ends with that exception after this
    one request: the segments after it are never requested, and the file
    is left with the bodies of the segments before it. *)
Theorem fetch_segments_stops_at_failure (env : Env) (cfg : Config)
    (body : string → string) (l pre post : list string) (u filepath : string)
    (e : exn) (s : State) :
  dedupe_segments l = pre ++ u :: post →
  (∀ h x, x ∈ pre →
     attempt_outcome env h (segment_request_url env cfg x) = inr (body x)) →
  (∀ h, attempt_outcome env h (segment_request_url env cfg u) = inl e) →
  ¬ is_chunked (inl e) →
  let r := _fetch_segments env cfg l filepath s in
  r.1 = inl e
  ∧ trace r.2
    = EvGet (segment_request_url env cfg u)
      :: rev (map (λ x, EvGet (segment_request_url env cfg x)) pre) ++ trace s
  ∧ files r.2 !! filepath = Some (concat_bodies body pre).
Proof.
  intros Hd Hpre Hu Hn r.
  assert (r = for_each (pre ++ u :: post) (λ x, _fetch_segment env cfg x filepath)
                (map_files (λ fs, <[filepath := ""]> fs) s)) as ->.
  { subst r. unfold _fetch_segments, bind, open_wb, set_files, modify.
    by rewrite Hd. }
  assert (∀ s0 acc, files s0 !! filepath = Some acc →
    let r := for_each (pre ++ u :: post) (λ x, _fetch_segment env cfg x filepath) s0 in
    r.1 = inl e
    ∧ trace r.2 = EvGet (segment_request_url env cfg u)
                  :: rev (map (λ x, EvGet (segment_request_url env cfg x)) pre)
                  ++ trace s0
    ∧ files r.2 !! filepath = Some (acc +:+ concat_bodies body pre)) as Hgen.
  { clear Hd. induction pre as [|x pre IH]; intros s0 acc Hacc.
    - cbn [app for_each]. unfold bind.
      rewrite (fetch_segment_fails_first_try env cfg u filepath s0 e (Hu _) Hn).
      simpl. by rewrite append_empty_r.
    - cbn [app for_each]. unfold bind.
      rewrite (fetch_segment_first_try env cfg x filepath s0 (body x))
        by (apply Hpre; left).
      destruct (IH (λ h y Hy, Hpre h y (list_elem_of_further _ _ _ Hy))
                  (map_files (λ fs, <[filepath := default "" (fs !! filepath)
                                                  +:+ body x]> fs)
                     (push (EvGet (segment_request_url env cfg x)) s0))
                  (acc +:+ body x)) as (H1 & H2 & H3).
      { simpl. rewrite lookup_insert_eq, Hacc. done. }
      cbn zeta in H1, H2, H3. split_and!; [done| |].
      + rewrite H2. simpl. by rewrite <- app_assoc.
      + rewrite H3. simpl. by rewrite append_assoc_string. }
  destruct (Hgen (map_files (λ fs, <[filepath := ""]> fs) s) "") as (H1 & H2 & H3).
  { simpl. apply lookup_insert_eq. }
  cbn zeta in H1, H2, H3. by rewrite H1, H2, H3.
Qed.

Lemma fetch_segments_stops_at_failure_witness :
  let r := _fetch_segments env_segment_b_fails cfg0 ["a.m4s"; "b.m4s"; "c.m4s"]
             "temp/vid_video.mp4" (state0 dash None) in
  dedupe_segments ["a.m4s"; "b.m4s"; "c.m4s"] = ["a.m4s"] ++ "b.m4s" :: ["c.m4s"]
  ∧ r.1 = inl (OtherException "ConnectionError" "reset")
  ∧ rev (trace r.2) = [EvGet "https://kinescope.io/vid/a.m4s";
                       EvGet "https://kinescope.io/vid/b.m4s"]
  ∧ files r.2 !! "temp/vid_video.mp4" = Some "https://kinescope.io/vid/a.m4s".
Proof.
  intros r.
  destruct (fetch_segments_stops_at_failure env_segment_b_fails cfg0
              (segment_request_url env_segment_b_fails cfg0)
              ["a.m4s"; "b.m4s"; "c.m4s"] ["a.m4s"] ["c.m4s"] "b.m4s"
              "temp/vid_video.mp4" (OtherException "ConnectionError" "reset")
              (state0 dash None)) as (H1 & H2 & H3).
  - reflexivity.
  - intros h x Hx. apply list_elem_of_singleton in Hx as ->. reflexivity.
  - intros h. reflexivity.
  - by intros [m Hm].
  - subst r. split_and!; [reflexivity|exact H1| |].
    + rewrite H2. reflexivity.
    + rewrite H3. reflexivity.
Defined.

(** ** Manifest Fetcher: error pages *)

(** X14.  For a response with an HTTP error status (400 to 599),
    [_load_hls_master] raises an [HTTPError] without parsing the body,
    while [_fetch_mpd_master] does not look at the status and hands the
    body of the error page to the MPD parser. *)
Theorem error_status_handling (env : Env) (s : State) (resp : Response) :
  http_get env (trace s) (playlist_url s) = inr resp →
  400 ≤ status_code resp < 600 →
  _load_hls_master env s
  = (inl (OtherException "HTTPError" (pretty (status_code resp) +:+ " Error")),
     push (EvGet (playlist_url s)) s)
  ∧ _fetch_mpd_master env s
    = (mpd_parse env (text resp), push (EvGet (playlist_url s)) s).
Proof.
  intros Hget [Hlo Hhi].
  unfold _load_hls_master, _fetch_mpd_master, get, raise_for_status, bind, gets,
    emit, modify, lift, raise. simpl. rewrite Hget. simpl.
  apply Z.leb_le in Hlo. apply Z.ltb_lt in Hhi. rewrite Hlo, Hhi. simpl.
  split; [done|]. by destruct (mpd_parse env (text resp)).
Qed.

Lemma error_status_handling_witness :
  let s := state0 hls None in
  http_get env_404 (trace s) (playlist_url s)
  = inr {| status_code := 404; text := "<html>Not Found</html>";
           content := inr "<html>Not Found</html>" |}
  ∧ (_load_hls_master env_404 s).1
    = inl (OtherException "HTTPError" "404 Error")
  ∧ (_fetch_mpd_master env_404 s).1 = inr mpd_clear.
Proof.
  intros s.
  destruct (error_status_handling env_404 s
              {| status_code := 404; text := "<html>Not Found</html>";
                 content := inr "<html>Not Found</html>" |} eq_refl)
    as [H1 H2]; [done|].
  split_and!; [reflexivity|by rewrite H1|by rewrite H2].
Defined.

(** ** Segment deduplication: what the list looks like *)

Lemma collapse_from_spec seen l :
  NoDup (collapse_from seen l)
  ∧ ∀ x, x ∈ collapse_from seen l ↔ x ∈ l ∧ x ∉ seen.
Proof.
  revert seen. induction l as [|y l IH]; intros seen; simpl.
  - split; [constructor|]. intros x. split; [by inversion 1|by intros [? _]].
  - destruct (bool_decide (y ∈ seen)) eqn:Hy.
    + apply bool_decide_eq_true_1 in Hy.
      destruct (IH seen) as [Hn Hm]. split; [done|].
      intros x. rewrite Hm, elem_of_cons. split; [tauto|].
      intros [[->|?] ?]; [done|tauto].
    + apply bool_decide_eq_false_1 in Hy.
      destruct (IH (y :: seen)) as [Hn Hm]. split.
      * apply NoDup_cons. split; [|done]. rewrite Hm, not_elem_of_cons.
        intros [_ [? _]]. done.
      * intros x. rewrite !elem_of_cons, Hm, not_elem_of_cons.
        destruct (decide (x = y)) as [->|Hne]; [tauto|]. tauto.
Qed.

(** X15.  The list [_fetch_segments] requests has no duplicates, and a
    URI is in it exactly when it is a non-empty URI of the input. *)
Theorem dedupe_segments_nodup (l : list string) :
  NoDup (dedupe_segments l)
  ∧ ∀ x, x ∈ dedupe_segments l ↔ x ∈ l ∧ x ≠ "".
Proof.
  rewrite dedupe_segments_collapse. unfold collapse_duplicates.
  destruct (collapse_from_spec [] (nonempty l)) as [Hn Hm].
  split; [done|]. intros x. rewrite Hm. unfold nonempty.
  rewrite list_elem_of_filter. split.
  - intros [[? ?] _]. done.
  - intros [? ?]. split; [done|]. by inversion 1.
Qed.

(** ** HLS variant selection never fails on integer heights *)

(** X16.  With no desired resolution, or one whose height is an
    integer, the selection over any list of variants returns a pair of
    URIs: the [IndexError] and [TypeError] branches are not reached. *)
Theorem select_from_succeeds (url : string) (variants : list Variant)
    (d : option (option Z * Z)) :
  ∃ video_uri audio_uri,
    select_from url variants (desired d) = inr (video_uri, audio_uri)
    ∧ (variants = [] → video_uri = url ∧ audio_uri = None)
    ∧ (variants ≠ [] →
         ∃ v, v ∈ variants ∧ video_uri = v_video_uri v ∧ audio_uri = v_audio_uri v).
Proof.
  destruct variants as [|v0 vs].
  { exists url, None. by destruct d as [[? ?]|]. }
  assert (∀ l : list Variant, l ≠ [] → ∃ v, py_last l = Some v ∧ v ∈ l) as Hlast.
  { intros l Hl. unfold py_last. destruct (last l) as [v|] eqn:E.
    - exists v. split; [done|]. by apply last_Some_elem_of.
    - by apply last_None in E. }
  assert (∃ v, v ∈ v0 :: vs
            ∧ select_from url (v0 :: vs) (desired d)
              = inr (v_video_uri v, v_audio_uri v)) as (v & Hin & Hsel).
  { destruct d as [[w h]|]; unfold desired, select_from, chosen_variant.
    - destruct (leq_variants h (v0 :: vs)) as [|q leq] eqn:E.
      + destruct (Hlast (v0 :: vs)) as (v & -> & Hv); [done|]. by exists v.
      + destruct (Hlast (q :: leq)) as (v & -> & Hv); [done|]. exists v.
        split; [|done]. rewrite <- E in Hv.
        by apply list_elem_of_filter in Hv as [_ ?].
    - destruct (Hlast (v0 :: vs)) as (v & -> & Hv); [done|]. by exists v. }
  exists (v_video_uri v), (v_audio_uri v). split_and!; [done|done|].
  intros _. by exists v.
Qed.

(** ** The audio rendition of an HLS variant *)






Example pick_audio_prefers_language :
  pick_audio_uri_for_group (λ _ u, "https://kinescope.io/vid/" +:+ u) (λ s, s)
    "https://kinescope.io/vid/master.m3u8" (Some "ru")
    (audio_by_group master_audio) (Some "aud")
  = Some "https://kinescope.io/vid/ru.m3u8".
Proof. by vm_compute. Qed.


(** ** The resolutions of a DASH manifest *)

Lemma sorted_by_height_spec reps l :
  sorted_by_height reps = inr l →
  l ≡ₚ reps
  ∧ StronglySorted (λ x y, height_of (rep_resolution x) ≤ height_of (rep_resolution y)) l.
Proof.
  unfold sorted_by_height.
  assert (∀ l0 : list Representation,
    py_sorted Z.leb (λ r, default 0 (r_height r)) l0 ≡ₚ l0
    ∧ StronglySorted (λ x y, height_of (rep_resolution x)
                             ≤ height_of (rep_resolution y))
        (py_sorted Z.leb (λ r, default 0 (r_height r)) l0)) as Hsort.
  { intros l0. split; [apply py_sorted_perm|].
    eapply StronglySorted_weaken;
      [|apply (py_sorted_sorted Z.leb (λ r, default 0 (r_height r)))].
    - intros x y H. apply Z.leb_le in H. exact H.
    - intros a b H. apply Z.leb_gt in H. apply Z.leb_le. lia.
    - intros a b c H1 H2. apply Z.leb_le in H1, H2. apply Z.leb_le. lia. }
  destruct reps as [|r0 [|r1 reps]].
  - intros [= <-]. split; [done|constructor].
  - intros [= <-]. split; [done|]. repeat constructor.
  - destruct (forallb _ _); [|done]. intros [= <-].
    exact (Hsort (r0 :: r1 :: reps)).
Qed.

Lemma StronglySorted_map {A B} (f : A → B) (R : B → B → Prop) l :
  StronglySorted (λ x y, R (f x) (f y)) l → StronglySorted R (map f l).
Proof.
  induction 1 as [|x l _ IH Hx]; simpl; constructor; [exact IH|].
  apply Forall_forall. intros y Hy. apply list_elem_of_fmap in Hy as (z & -> & Hz).
  rewrite Forall_forall in Hx. by apply Hx.
Qed.

Lemma resolutions_of_sets_spec sets l :
  resolutions_of_sets sets = inr (Some l) →
  ∃ pre a reps post,
    sets = pre ++ a :: post
    ∧ (∀ b, b ∈ pre → ¬ declares_height b)
    ∧ declares_height a
    ∧ as_representations a = Some reps
    ∧ l ≡ₚ map rep_resolution reps
    ∧ StronglySorted (λ x y, height_of x ≤ height_of y) l.
Proof.
  induction sets as [|a sets IH]; cbn [resolutions_of_sets]; [done|].
  destruct (as_representations a) as [[|r0 rest]|] eqn:Hr;
    cbn [subscript0 rbind default from_option]; unfold id; [done| |done].
  destruct (truthy_int (r_height r0)) eqn:Ht.
  - destruct (sorted_by_height (r0 :: rest)) as [e|sorted] eqn:Hs;
      cbn [rbind]; [done|].
    intros [= <-]. apply sorted_by_height_spec in Hs as [Hp Hsorted].
    exists [], a, (r0 :: rest), sets. split_and!; [done| |by exists r0, rest|done| |].
    + intros b Hb. inversion Hb.
    + change (map rep_resolution sorted ≡ₚ map rep_resolution (r0 :: rest)).
      by rewrite Hp.
    + by apply (StronglySorted_map rep_resolution
                  (λ x y, height_of x ≤ height_of y)).
  - intros H. destruct (IH H) as (pre & a' & reps & post & -> & Hpre & Hd & Ha & Hp & Hs).
    exists (a :: pre), a', reps, post. split_and!; [done| |done..].
    intros b [->|Hb]%elem_of_cons; [|by apply Hpre].
    intros (r1 & rest1 & Hr1 & Ht1). rewrite Hr in Hr1. simplify_eq. congruence.
Qed.

(** X18.  [get_resolutions] changes nothing.  It returns [None] when HLS
    is the active protocol or no manifest is loaded.  A list it returns
    holds the (width, height) pairs of all representations of the first
    adaptation set whose first representation declares a height, in
    ascending order of height. *)
Theorem get_resolutions_spec (s : State) :
  (get_resolutions s).2 = s
  ∧ (playlist_type s = hls ∨ mpd_master s = None →
       (get_resolutions s).1 = inr None)
  ∧ (∀ l, (get_resolutions s).1 = inr (Some l) →
       ∃ sets pre a reps post,
         playlist_type s = dash
         ∧ first_period_sets (mpd_master s) = inr sets
         ∧ sets = pre ++ a :: post
         ∧ (∀ b, b ∈ pre → ¬ declares_height b)
         ∧ declares_height a
         ∧ as_representations a = Some reps
         ∧ l ≡ₚ map rep_resolution reps
         ∧ StronglySorted (λ x y, height_of x ≤ height_of y) l).
Proof.
  unfold get_resolutions, bind, gets, lift, ret. simpl. split_and!.
  - destruct (playlist_type s), (mpd_master s) as [m|]; try done.
    by destruct (first_period_sets (Some m)).
  - intros [->|Hm]; [done|]. rewrite Hm. by destruct (playlist_type s).
  - intros l. destruct (playlist_type s), (mpd_master s) as [m|]; try done.
    destruct (first_period_sets (Some m)) as [e|sets] eqn:Hs; simpl; [done|].
    intros H. destruct (resolutions_of_sets_spec sets l H)
      as (pre & a & reps & post & ?).
    by exists sets, pre, a, reps, post.
Qed.

(** X19.  [download] called without a resolution uses, for its DASH
    stage, a resolution of greatest height among those
    [get_resolutions] lists, and raises [InvalidResolution] when there
    are none; a resolution that is passed in is used as it is.  Nothing
    is changed either way. *)
Theorem pick_resolution_spec (resolution : option Resolution) (s : State) :
  (pick_resolution resolution s).2 = s
  ∧ (∀ r, resolution = Some r → (pick_resolution resolution s).1 = inr r)
  ∧ (resolution = None →
       match (get_resolutions s).1 with
       | inr (Some (r0 :: l)) =>
           ∃ r, (pick_resolution resolution s).1 = inr r
             ∧ r ∈ r0 :: l
             ∧ ∀ x, x ∈ r0 :: l → height_of x ≤ height_of r
       | inr _ =>
           (pick_resolution resolution s).1
           = inl (InvalidResolution "Resolutions are not available for DASH manifest")
       | inl e => (pick_resolution resolution s).1 = inl e
       end).
Proof.
  split_and!.
  - apply pick_resolution_state.
  - by intros r ->.
  - intros ->. unfold pick_resolution, bind.
    pose proof (proj1 (get_resolutions_spec s)) as Hst.
    pose proof (proj2 (proj2 (get_resolutions_spec s))) as Hsorted.
    destruct (get_resolutions s) as [[e|[[|r0 l]|]] s1]; simpl in *; try done.
    destruct (Hsorted (r0 :: l) eq_refl) as (_ & _ & _ & _ & _ & _ & _ & _ & _ & _ & _ & _ & Hs).
    unfold py_last. destruct (last (r0 :: l)) as [r|] eqn:El.
    2:{ by apply last_None in El. }
    exists r. split_and!; [|by apply last_Some_elem_of|].
    + change (inr (default r0 (last (r0 :: l))) = (inr r : res Resolution)).
      by rewrite El.
    + intros x Hx.
      apply (StronglySorted_last (λ x y : Resolution, height_of x ≤ height_of y)
               (r0 :: l) r); [intros a; lia|exact Hs|exact El|exact Hx].
Qed.

(** ** The final path and the temp file over a whole call *)

Section KeepsDash.
Variable env : Env.
Variable cfg : Config.
Variable path : string.

Lemma keeps_post url payload : keeps path (post env url payload).
Proof using Type. unfold post. keeps_auto. Qed.

Lemma keeps_get_license_key : keeps path (_get_license_key env cfg).
Proof using Type.
  unfold _get_license_key. keeps_step; [keeps_auto|].
  destruct x as [m|]; [|keeps_auto].
  keeps_step; [keeps_auto|]. keeps_step; [keeps_auto|].
  destruct (as_content_protections x0) as [[|cp cps]|]; [keeps_auto| |keeps_auto].
  destruct (cp_cenc_default_kid cp); [|keeps_auto].
  keeps_step; [keeps_auto|]. keeps_step; [apply keeps_post|keeps_auto].
Qed.

Lemma keeps_fetch_loop n segment_url file :
  file ≠ path → keeps path (fetch_loop env cfg n segment_url file).
Proof using Type.
  intros Hne. induction n as [|n IH]; simpl; [apply keeps_raise|].
  apply keeps_try_except.
  - unfold fetch_once. keeps_step; [apply keeps_get|].
    keeps_step; [keeps_auto|]. unfold write. apply keeps_modify.
    intros st. simpl. by apply lookup_insert_ne.
  - intros e. destruct e; try apply keeps_raise. exact IH.
Qed.

Lemma keeps_fetch_segments l file :
  file ≠ path → keeps path (_fetch_segments env cfg l file).
Proof using Type.
  intros Hne. unfold _fetch_segments, open_wb. keeps_step.
  - apply keeps_modify. intros st. simpl. by apply lookup_insert_ne.
  - apply keeps_for_each. intros u. by apply keeps_fetch_loop.
Qed.

Lemma keeps_merge_tracks v a t : t ≠ path → keeps path (_merge_tracks env cfg v a t).
Proof using Type.
  intros Hne. unfold _merge_tracks. apply keeps_try_except.
  - keeps_step; [by apply keeps_run_process|keeps_auto].
  - intros e. destruct e; apply keeps_raise.
Qed.

Lemma keeps_decrypt_video v t k :
  t ≠ path → keeps path (_decrypt_video env cfg v t k).
Proof using Type.
  intros Hne. unfold _decrypt_video. apply keeps_try_except.
  - keeps_step; [by apply keeps_run_process|keeps_auto].
  - intros e. destruct e; apply keeps_raise.
Qed.

Lemma keeps_rename a b : a ≠ path → b ≠ path → keeps path (rename a b).
Proof using Type.
  intros Ha Hb. unfold rename. keeps_step; [keeps_auto|].
  destruct (x !! a); [|keeps_auto].
  apply keeps_modify. intros st. simpl.
  rewrite lookup_insert_ne by done. by apply lookup_delete_ne.
Qed.

Lemma keeps_dash_assemble picked tmp :
  tmp ≠ path → path ∉ track_paths cfg →
  keeps path (dash_assemble env cfg picked tmp).
Proof using Type.
  intros Htmp Htracks.
  assert (∀ kind suffix, track_path cfg kind suffix ∈ track_paths cfg →
                         track_path cfg kind suffix ≠ path) as Hne.
  { intros kind suffix Hin Heq. apply Htracks. by rewrite <- Heq. }
  assert (track_path cfg "video" "" ≠ path) as Hv
    by (apply Hne; unfold track_paths; set_solver).
  assert (track_path cfg "video" ".enc" ≠ path) as Hve
    by (apply Hne; unfold track_paths; set_solver).
  assert (track_path cfg "audio" "" ≠ path) as Ha
    by (apply Hne; unfold track_paths; set_solver).
  assert (track_path cfg "audio" ".enc" ≠ path) as Hae
    by (apply Hne; unfold track_paths; set_solver).
  unfold dash_assemble.
  keeps_step; [apply keeps_get_license_key|].
  keeps_step; [keeps_auto|]. keeps_step; [keeps_auto|].
  keeps_step; [destruct (truthy_str x); by apply keeps_fetch_segments|].
  keeps_step.
  { case_match; [|keeps_auto].
    destruct (truthy_str x); by apply keeps_fetch_segments. }
  keeps_step.
  { destruct (truthy_str x); [|keeps_auto].
    keeps_step; [keeps_auto|]. keeps_step; [by apply keeps_decrypt_video|].
    keeps_step; [|keeps_auto].
    case_match; [by apply keeps_decrypt_video|keeps_auto]. }
  case_match; [|by apply keeps_rename].
  keeps_step; [keeps_auto|]. keeps_step; [by apply keeps_merge_tracks|keeps_auto].
Qed.

Lemma keeps_fall_back_to_dash e : keeps path (fall_back_to_dash env cfg e).
Proof using Type.
  unfold fall_back_to_dash, _fetch_mpd_master.
  keeps_step; [keeps_auto|]. keeps_step; [keeps_auto|].
  keeps_step; [|keeps_auto].
  keeps_step; [keeps_auto|]. keeps_step; [apply keeps_get|keeps_auto].
Qed.

Lemma rename_keeps_on_failure a : keeps_on_failure path (rename a path).
Proof using Type.
  intros s e. unfold rename, bind, gets, raise, set_files, modify. simpl.
  by destruct (files s !! a).
Qed.

Lemma rename_print_keeps_on_failure a line :
  keeps_on_failure path (rename a path ;; print line).
Proof using Type.
  intros s e. unfold rename, bind, gets, raise, set_files, modify, print, emit.
  simpl. by destruct (files s !! a).
Qed.

Lemma hls_pipeline_keeps_on_failure resolution tmp :
  tmp ≠ path → keeps_on_failure path (hls_pipeline env cfg resolution tmp path).
Proof using Type.
  intros Hne. unfold hls_pipeline.
  apply keeps_on_failure_bind; [by apply keeps_hls_mux|intros _].
  apply keeps_on_failure_bind; [keeps_auto|intros _].
  apply keeps_on_failure_bind; [by apply keeps_verify|intros _].
  apply rename_keeps_on_failure.
Qed.

Lemma dash_pipeline_keeps_on_failure picked tmp :
  tmp ≠ path → path ∉ track_paths cfg →
  keeps_on_failure path (dash_pipeline env cfg picked tmp path).
Proof using Type.
  intros Hne Htracks. unfold dash_pipeline.
  apply keeps_on_failure_bind; [by apply keeps_dash_assemble|intros _].
  apply keeps_on_failure_bind; [by apply keeps_verify|intros _].
  apply rename_print_keeps_on_failure.
Qed.

Lemma dash_stage_keeps_on_failure resolution tmp :
  tmp ≠ path → path ∉ track_paths cfg →
  keeps_on_failure path (dash_stage env cfg resolution tmp path).
Proof using Type.
  intros Hne Htracks s e.
  assert (dash_stage env cfg resolution tmp path s
          = match (pick_resolution resolution s).1 with
            | inl e0 => try_hls env cfg e0 resolution tmp path s
            | inr picked =>
                try_except (dash_pipeline env cfg picked tmp path)
                  (λ e1, try_hls env cfg e1 (Some picked) tmp path) s
            end) as ->.
  { unfold dash_stage, attempt, bind.
    pose proof (pick_resolution_state resolution s) as Hst.
    destruct (pick_resolution resolution s) as [[e0|picked] s0]; simpl in *;
      by subst s0. }
  destruct (pick_resolution resolution s).1 as [e0|picked].
  - apply (try_hls_keeps_final_on_failure env cfg path e0 resolution tmp Hne s e).
  - unfold try_except.
    pose proof (dash_pipeline_keeps_on_failure picked tmp Hne Htracks s) as Hd.
    destruct (dash_pipeline env cfg picked tmp path s) as [[e1|[]] s1]; [|done].
    intros H. rewrite (try_hls_keeps_final_on_failure env cfg path e1 (Some picked)
                        tmp Hne s1 e H).
    by apply (Hd e1).
Qed.
End KeepsDash.

(** X20.  When the final path is not one of the track files of the
    temp directory, a call of [download] that ends with an exception
    leaves the final path as it was: nothing is written there before the
    closing rename of a successful attempt. *)
Theorem download_failure_keeps_final (env : Env) (cfg : Config)
    (filepath : string) (resolution : option Resolution) (s : State) (e : exn) :
  let final := with_suffix_mp4 env filepath in
  let r := download env cfg filepath resolution s in
  final ∉ track_paths cfg →
  r.1 = inl e →
  files r.2 !! final = files s !! final.
Proof.
  intros final r Htracks.
  pose proof (part_suffix_differs final) as Hne.
  destruct (playlist_type s) eqn:Ht.
  - assert (r = match hls_pipeline env cfg resolution (final +:+ ".part") final s with
                | (inr _, s1) => (inr tt, s1)
                | (inl e1, s1) =>
                    match fall_back_to_dash env cfg e1 s1 with
                    | (inl e2, s2) => (inl e2, s2)
                    | (inr _, s2) =>
                        dash_stage env cfg resolution (final +:+ ".part") final s2
                    end
                end) as ->.
    { subst r. unfold download, try_except, bind, gets, ret. cbn beta iota zeta.
      rewrite Ht. fold final.
      destruct (hls_pipeline env cfg resolution (final +:+ ".part") final s)
        as [[e1|[]] s1]; [|done].
      by destruct (fall_back_to_dash env cfg e1 s1) as [[e2|[]] s2]. }
    pose proof (hls_pipeline_keeps_on_failure env cfg final resolution
                  (final +:+ ".part") Hne s) as Hh.
    destruct (hls_pipeline env cfg resolution (final +:+ ".part") final s)
      as [[e1|[]] s1]; [|done].
    pose proof (keeps_fall_back_to_dash env cfg final e1 s1) as Hf.
    destruct (fall_back_to_dash env cfg e1 s1) as [[e2|[]] s2]; simpl in *.
    + intros _. rewrite Hf. by apply (Hh e1).
    + intros H.
      rewrite (dash_stage_keeps_on_failure env cfg final resolution
                 (final +:+ ".part") Hne Htracks s2 e H).
      rewrite Hf. by apply (Hh e1).
  - subst r. rewrite (download_dash_primary _ _ _ _ _ Ht). fold final.
    apply (dash_stage_keeps_on_failure env cfg final resolution
             (final +:+ ".part") Hne Htracks s e).
Qed.

Lemma download_failure_keeps_final_witness :
  let s := with_file "out.mp4" "yesterday" (state0 hls None) in
  let r := download env_no_chance cfg0 "out.mp4" None s in
  ("out.mp4" ∉ track_paths cfg0)
  ∧ r.1 = inl (ffmpeg_failed 1 ("muxer gave up" +:+ nl))
  ∧ files r.2 !! "out.mp4" = Some "yesterday".
Proof.
  intros s r.
  assert ("out.mp4" ∉ track_paths cfg0) as Hn.
  { unfold track_paths. intros H. repeat (apply elem_of_cons in H as [H|H]; [done|]).
    inversion H. }
  assert (r.1 = inl (ffmpeg_failed 1 ("muxer gave up" +:+ nl))) as Hr by by vm_compute.
  split_and!; [exact Hn|exact Hr|].
  etrans;
    [exact (download_failure_keeps_final env_no_chance cfg0 "out.mp4" None s _ Hn Hr)|].
  by vm_compute.
Defined.

Lemma rename_moves a b s s' :
  a ≠ b → rename a b s = (inr tt, s') → moved_into_place a b s'.
Proof.
  intros Hne. unfold rename, bind, gets, raise, set_files, modify. simpl.
  destruct (files s !! a) as [bytes|]; [|done].
  intros [= <-]. split; simpl.
  - rewrite lookup_insert_ne by done. apply lookup_delete_eq.
  - rewrite lookup_insert_eq. by eexists.
Qed.

Lemma moved_after_rename {A} (m : M A) a b s s' :
  a ≠ b → (m ;; rename a b) s = (inr tt, s') → moved_into_place a b s'.
Proof.
  intros Hne H. apply bind_inv in H as (x & s1 & _ & Hr). by eapply rename_moves.
Qed.

Lemma moved_after_rename_print {A} (m : M A) a b line s s' :
  a ≠ b → (m ;; rename a b ;; print line) s = (inr tt, s') →
  moved_into_place a b s'.
Proof.
  intros Hne H. apply bind_inv in H as (x & s1 & _ & H).
  apply bind_inv in H as ([] & s2 & Hr & Hp). injection Hp as <-.
  by apply (rename_moves a b s1 s2).
Qed.

Lemma try_hls_moves env cfg e resolution tmp final s s' :
  tmp ≠ final →
  try_hls env cfg e resolution tmp final s = (inr tt, s') →
  moved_into_place tmp final s'.
Proof.
  intros Hne H. unfold try_hls in H.
  apply bind_inv in H as ([] & s1 & _ & H).
  apply bind_inv in H as ([] & s2 & _ & H).
  apply bind_inv in H as ([] & s3 & _ & H).
  by eapply moved_after_rename_print.
Qed.

Lemma dash_stage_moves env cfg resolution tmp final s s' :
  tmp ≠ final →
  dash_stage env cfg resolution tmp final s = (inr tt, s') →
  moved_into_place tmp final s'.
Proof.
  intros Hne H. unfold dash_stage, attempt, bind at 1 in H.
  destruct (pick_resolution resolution s) as [[e|picked] s0].
  - by eapply try_hls_moves.
  - unfold try_except in H.
    destruct (dash_pipeline env cfg picked tmp final s0) as [[e|[]] s1] eqn:Hd.
    + by eapply try_hls_moves.
    + injection H as <-. unfold dash_pipeline in Hd.
      apply bind_inv in Hd as ([] & s2 & _ & Hd).
      by eapply moved_after_rename_print.
Qed.

(** X21.  When [download] returns normally, the temp file
    [<final>.part] is gone and the final path holds a file: the output
    was moved into place by the closing rename. *)
Theorem download_moves_into_place (env : Env) (cfg : Config) (filepath : string)
    (resolution : option Resolution) (s s' : State) :
  let final := with_suffix_mp4 env filepath in
  download env cfg filepath resolution s = (inr tt, s') →
  moved_into_place (final +:+ ".part") final s'.
Proof.
  intros final H.
  pose proof (part_suffix_differs final) as Hne.
  unfold download in H. cbn zeta in H. fold final in H.
  unfold bind at 1, gets in H. cbn beta iota in H.
  destruct (playlist_type s).
  - unfold bind at 1, try_except in H.
    destruct ((hls_pipeline env cfg resolution _ _ ;; ret true) s)
      as [[e|returned] s1] eqn:Hh.
    + destruct ((fall_back_to_dash env cfg e ;; ret false) s1)
        as [[e'|returned] s2] eqn:Hf; [done|].
      apply bind_inv in Hf as ([] & s3 & _ & [= <- <-]).
      by eapply dash_stage_moves.
    + apply bind_inv in Hh as ([] & s3 & Hh & [= <- <-]).
      injection H as <-. unfold hls_pipeline in Hh.
      apply bind_inv in Hh as ([] & s4 & _ & Hh).
      apply bind_inv in Hh as ([] & s5 & _ & Hh).
      by eapply moved_after_rename.
  - unfold bind at 1, ret in H. by eapply dash_stage_moves.
Qed.

Lemma download_moves_into_place_witness :
  let s := state0 dash (Some mpd_clear) in
  let r := download env_fine cfg0 "out.mp4" None s in
  r.1 = inr tt
  ∧ files r.2 !! "out.mp4.part" = None
  ∧ files r.2 !! "out.mp4" = Some "mp4".
Proof.
  intros s r.
  assert (download env_fine cfg0 "out.mp4" None s = (inr tt, r.2)) as Hr
    by by vm_compute.
  destruct (download_moves_into_place env_fine cfg0 "out.mp4" None s r.2 Hr)
    as [Htmp _].
  split_and!; [by vm_compute|exact Htmp|by vm_compute].
Defined.
